(** * Hytopia golf: a shallow embedding of the game logic

    Covers [GolfPlayerEntity] (turn / aim / power-charge state machine),
    [GolfGameManager] (turn order, hole progression, scoring, penalties)
    and the course-stamping helpers [buildRectangle], [buildCircle] and
    [buildSimpleTree] of the server entry point.

    JS numbers that only ever hold integers (shot counts, indices, block
    coordinates) are modelled as [Z]; power and force, which are fractional,
    are modelled as exact rationals [Q].  The engine (camera, UI messages,
    audio, physics) is outside the repository: its calls are recorded as
    effects or dropped when they have no bearing on the state. *)

From Stdlib Require Import ZArith QArith Qminmax List Bool Permutation Lia.
From Stdlib Require Import String Reals Lqa Sorted.
Import ListNotations.

Open Scope Z_scope.

(** ** Vectors *)

Record V3 (A : Type) := mkV3 { vx : A; vy : A; vz : A }.
Arguments mkV3 {A} _ _ _.
Arguments vx {A} _.
Arguments vy {A} _.
Arguments vz {A} _.

(** ** GolfPlayerEntity *)

Module Player.

(** The fields of [GolfPlayerEntity] that the game logic reads or writes.
    [hasBall] is [_currentBall !== undefined]; [hasWorld] is
    [this.world !== undefined] (the entity is spawned). *)
Record Entity := mkEntity {
  maxPower : Q;
  currentPower : Q;
  isCharging : bool;
  isAiming : bool;
  hasBall : bool;
  shotCount : Z;
  isPlayerTurn : bool;
  hasWorld : bool
}.

(** Effects on the ball sent to the engine. *)
Inductive Effect :=
| Hit (direction : V3 Q) (force : Q)   (* [_currentBall.hit(aimDirection, force)] *)
| ResetBall.                           (* [_currentBall.resetToPosition(...)] *)

(** The player input of one controller tick: space, F, R. *)
Record Input := mkInput { sp : bool; f : bool; r : bool }.

(** [new GolfPlayerEntity({ maxPower, ... })]: power 0, no ball, no turn. *)
Definition newEntity (mp : Q) (spawned : bool) : Entity :=
  mkEntity mp 0 false false false 0 false spawned.

Definition setWith (e : Entity) (p : Q) (c a b : bool) (n : Z) (t w : bool) :=
  mkEntity (maxPower e) p c a b n t w.

Definition setGolfBall (e : Entity) : Entity :=
  setWith e (currentPower e) (isCharging e) (isAiming e) true
          (shotCount e) (isPlayerTurn e) (hasWorld e).

(** [_startAiming]: does nothing without a ball. *)
Definition startAiming (e : Entity) : Entity :=
  if negb (hasBall e) then e
  else setWith e (currentPower e) (isCharging e) true (hasBall e)
               (shotCount e) (isPlayerTurn e) (hasWorld e).

Definition stopAiming (e : Entity) : Entity :=
  setWith e (currentPower e) (isCharging e) false (hasBall e)
          (shotCount e) (isPlayerTurn e) (hasWorld e).

Definition toggleAiming (e : Entity) : Entity :=
  if isAiming e then stopAiming e else startAiming e.

(** [startTurn]: turn on, shot count reset, then [_startAiming]. *)
Definition startTurn (e : Entity) : Entity :=
  startAiming (setWith e (currentPower e) (isCharging e) (isAiming e)
                       (hasBall e) 0 true (hasWorld e)).

(** [endTurn]. *)
Definition endTurn (e : Entity) : Entity :=
  setWith e 0 false false (hasBall e) (shotCount e) false (hasWorld e).

(** [_startCharging]. *)
Definition startCharging (e : Entity) : Entity :=
  setWith e 0 true (isAiming e) (hasBall e) (shotCount e)
          (isPlayerTurn e) (hasWorld e).

(** [maxPower / (60 * 2)]. *)
Definition powerIncrement (e : Entity) : Q := maxPower e / (60 * 2).

(** [_updatePower]: [Math.min(currentPower + increment, maxPower)]. *)
Definition updatePower (e : Entity) : Entity :=
  if negb (isCharging e) then e
  else setWith e (Qmin (currentPower e + powerIncrement e) (maxPower e))
               (isCharging e) (isAiming e) (hasBall e) (shotCount e)
               (isPlayerTurn e) (hasWorld e).

(** [(currentPower / maxPower) * 50]. *)
Definition shotForce (e : Entity) : Q := (currentPower e / maxPower e) * 50.

(** [_executeShot], given the camera's facing direction: charging ends, the
    ball is hit, the shot count grows, the power is reset and aiming stops. *)
Definition executeShot (facing : V3 Q) (e : Entity) : Entity * list Effect :=
  if negb (isCharging e) || negb (hasBall e) || negb (hasWorld e) then (e, [])
  else
    let force := shotForce e in
    let e1 := setWith e (currentPower e) false (isAiming e) (hasBall e)
                      (shotCount e + 1) (isPlayerTurn e) (hasWorld e) in
    let e2 := setWith e1 0 (isCharging e1) (isAiming e1) (hasBall e1)
                      (shotCount e1) (isPlayerTurn e1) (hasWorld e1) in
    (stopAiming e2, [Hit facing force]).

(** The [TICK_WITH_PLAYER_INPUT] handler of [_setupGolfControls]. *)
Definition tick (facing : V3 Q) (inp : Input) (e : Entity) : Entity * list Effect :=
  if negb (isPlayerTurn e) then (e, [])
  else
    let '(e1, fx1) :=
      if sp inp && negb (isCharging e) && isAiming e then (startCharging e, [])
      else if negb (sp inp) && isCharging e then executeShot facing e
      else (e, []) in
    let e2 := if isCharging e1 then updatePower e1 else e1 in
    let e3 := if f inp && isPlayerTurn e2 then toggleAiming e2 else e2 in
    let fx4 := if r inp && isPlayerTurn e3 && hasBall e3 then [ResetBall] else [] in
    (e3, fx1 ++ fx4).

(** The water-hazard penalty of the manager: [golfEntity['_shotCount']++]. *)
Definition addPenalty (e : Entity) : Entity :=
  setWith e (currentPower e) (isCharging e) (isAiming e) (hasBall e)
          (shotCount e + 1) (isPlayerTurn e) (hasWorld e).

(** The ball hits among a list of effects. *)
Definition isHit (x : Effect) : bool := match x with Hit _ _ => true | ResetBall => false end.
Definition hits (fx : list Effect) : list Effect := filter isHit fx.

(** Runs of the entity: its public methods, input ticks and penalties, with
    the effects each one produces. *)
Inductive Event :=
| EvSetBall | EvStartTurn | EvEndTurn | EvTick (d : V3 Q) (i : Input) | EvPenalty.

Definition applyEvent (ev : Event) (e : Entity) : Entity * list Effect :=
  match ev with
  | EvSetBall => (setGolfBall e, [])
  | EvStartTurn => (startTurn e, [])
  | EvEndTurn => (endTurn e, [])
  | EvTick d i => tick d i e
  | EvPenalty => (addPenalty e, [])
  end.

Fixpoint runLog (evs : list Event) (e : Entity) : Entity * list (Event * list Effect) :=
  match evs with
  | [] => (e, [])
  | ev :: t =>
      let '(e1, fx) := applyEvent ev e in
      let '(e2, log) := runLog t e1 in
      (e2, (ev, fx) :: log)
  end.

Definition isStartTurn (ev : Event) : bool :=
  match ev with EvStartTurn => true | _ => false end.

(** The part of a log after its last [startTurn], if it has one. *)
Fixpoint afterLastStart (log : list (Event * list Effect)) : option (list (Event * list Effect)) :=
  match log with
  | [] => None
  | (ev, _) :: t =>
      match afterLastStart t with
      | Some s => Some s
      | None => if isStartTurn ev then Some t else None
      end
  end.

(** Strokes taken in a log: one per ball hit, one per water penalty. *)
Fixpoint strokesIn (log : list (Event * list Effect)) : Z :=
  match log with
  | [] => 0
  | (EvPenalty, _) :: t => 1 + strokesIn t
  | (_, fx) :: t => Z.of_nat (List.length (hits fx)) + strokesIn t
  end.

(** Every way the entity's state changes: its own public methods, the input
    tick, and the manager's penalty. *)
Inductive step : Entity -> Entity -> Prop :=
| st_setGolfBall e : step e (setGolfBall e)
| st_startTurn e : step e (startTurn e)
| st_endTurn e : step e (endTurn e)
| st_tick d i e : step e (fst (tick d i e))
| st_penalty e : step e (addPenalty e).

Inductive reachable (mp : Q) : Entity -> Prop :=
| reach_new w : reachable mp (newEntity mp w)
| reach_step e e' : reachable mp e -> step e e' -> reachable mp e'.

(** The power invariant of a player entity of maximum power [mp]. *)
Definition power_inv (mp : Q) (e : Entity) : Prop :=
  maxPower e = mp /\ (0 <= currentPower e)%Q /\ (currentPower e <= mp)%Q.

End Player.

(** ** GolfGameManager *)

(** A JS number used as an array index: an integer, or [NaN] (what
    [(i + 1) % 0] evaluates to). *)
Inductive num := Num (z : Z) | NaN.

Module Score.
Import Player.

(** [PlayerScore].  [strokes] is the JS array of strokes per hole; it may
    have holes (unassigned slots), hence [option Z]. *)
Record PlayerScore := mkScore {
  id : string;                 (* [player.id] *)
  golfEntity : Entity;
  strokes : list (option Z);
  totalStrokes : Z;
  currentHole : Z
}.

Definition withEntity (ps : PlayerScore) (e : Entity) : PlayerScore :=
  mkScore (id ps) e (strokes ps) (totalStrokes ps) (currentHole ps).

(** [arr[i] = v] on a JS array: replaces slot [i], or extends the array with
    empty slots up to [i]. *)
Fixpoint setIndex (l : list (option Z)) (i : nat) (v : Z) : list (option Z) :=
  match l, i with
  | _ :: t, O => Some v :: t
  | x :: t, S i' => x :: setIndex t i' v
  | [], O => [Some v]
  | [], S i' => None :: setIndex [] i' v
  end.

(** The sum of the recorded per-hole strokes (empty slots skipped). *)
Fixpoint sumStrokes (l : list (option Z)) : Z :=
  match l with
  | [] => 0
  | Some v :: t => v + sumStrokes t
  | None :: t => sumStrokes t
  end.

End Score.

Module Manager.
Import Player Score.

Record GolfHole := mkHole {
  hole_id : Z;
  name : string;
  par : Z;
  teePosition : V3 Z;
  holePosition : V3 Z;
  holeRadius : Q
}.

(** The fields of [GolfGameManager].  [players] lists the entries of the
    [_players] map in insertion order (the order of [Array.from(values())]);
    [golfBall] is [_golfBall !== undefined]. *)
Record GameManager := mkManager {
  players : list PlayerScore;
  currentPlayerIndex : num;
  currentHole : Z;
  gameInProgress : bool;
  holes : list GolfHole;
  golfBall : bool
}.

(** A call either returns or throws; a throw leaves the mutations made so far. *)
Inductive Outcome := Ok (m : GameManager) | Throw (m : GameManager) (err : string).

Definition stateOf (o : Outcome) : GameManager :=
  match o with Ok m => m | Throw m _ => m end.

Definition setPlayers m ps :=
  mkManager ps (currentPlayerIndex m) (currentHole m) (gameInProgress m) (holes m) (golfBall m).
Definition setIndex m i :=
  mkManager (players m) i (currentHole m) (gameInProgress m) (holes m) (golfBall m).

(** [_setupDefaultCourse]. *)
Definition defaultCourse : list GolfHole :=
  [ mkHole 1 "Starter Hole" 3 (mkV3 (-10) 2 0) (mkV3 10 2 0) (1 # 2);
    mkHole 2 "Dogleg Right" 4 (mkV3 (-15) 2 10) (mkV3 15 2 (-5)) (1 # 2);
    mkHole 3 "Long Drive" 5 (mkV3 0 2 (-20)) (mkV3 0 2 25) (1 # 2) ].

(** [new GolfGameManager(world)]. *)
Definition initial : GameManager := mkManager [] (Num 0) 0 false defaultCourse false.

(** Applies [g] to the entry at position [k]. *)
Fixpoint updateAt {A} (k : nat) (g : A -> A) (l : list A) : list A :=
  match l, k with
  | [], _ => []
  | x :: t, O => g x :: t
  | x :: t, S k' => x :: updateAt k' g t
  end.

(** [forEach(p => { if (p !== current) g(p) })] where [current] sits at
    position [k]. *)
Fixpoint mapOthers {A} (k : nat) (g : A -> A) (l : list A) : list A :=
  match l, k with
  | [], _ => []
  | x :: t, O => x :: map g t
  | x :: t, S k' => g x :: mapOthers k' g t
  end.

Definition updateEntity (k : nat) (g : Entity -> Entity) (ps : list PlayerScore) :=
  updateAt k (fun p => withEntity p (g (golfEntity p))) ps.

(** [_getCurrentPlayer]: [Array.from(values())[index]], with its position. *)
Definition getCurrentPlayer (m : GameManager) : option (nat * PlayerScore) :=
  match currentPlayerIndex m with
  | Num z =>
      if z <? 0 then None
      else match nth_error (players m) (Z.to_nat z) with
           | Some ps => Some (Z.to_nat z, ps)
           | None => None
           end
  | NaN => None
  end.

(** [_startPlayerTurn]: every other entry's entity ends its turn, the
    current one gets the ball (when there is one) and starts its turn. *)
Definition startPlayerTurn (m : GameManager) : GameManager :=
  match getCurrentPlayer m with
  | None => m
  | Some (k, _) =>
      let ps1 := mapOthers k (fun p => withEntity p (endTurn (golfEntity p))) (players m) in
      let ps2 := if golfBall m then updateEntity k setGolfBall ps1 else ps1 in
      setPlayers m (updateEntity k startTurn ps2)
  end.

Definition endGameMissing : string := "TypeError: this._endGame is not a function".

(** [_startHole(holeIndex)].  Past the last hole it calls [this._endGame()],
    a method the class does not define: the call throws. *)
Definition startHole (holeIndex : Z) (m : GameManager) : Outcome :=
  if Z.of_nat (List.length (holes m)) <=? holeIndex then Throw m endGameMissing
  else Ok (startPlayerTurn
             (mkManager (players m) (Num 0) holeIndex (gameInProgress m)
                        (holes m) (golfBall m))).

(** [_nextPlayerTurn]: while the ball moves the call is re-armed on a timer
    and nothing changes; otherwise [(index + 1) % size] (JS [%] is [Z.rem]). *)
Definition nextPlayerTurn (ballMoving : bool) (m : GameManager) : GameManager :=
  if ballMoving then m
  else
    let size := Z.of_nat (List.length (players m)) in
    let i' := match currentPlayerIndex m with
              | Num z => if size =? 0 then NaN else Num (Z.rem (z + 1) size)
              | NaN => NaN
              end in
    startPlayerTurn (setIndex m i').

(** [addPlayer(player, golfEntity)]: [Map.set] replaces an entry in place or
    appends a new one. *)
Definition addPlayer (pid : string) (e : Entity) (m : GameManager) : GameManager :=
  let fresh := mkScore pid e [] 0 0 in
  if existsb (fun p => String.eqb (id p) pid) (players m)
  then setPlayers m (map (fun p => if String.eqb (id p) pid then fresh else p) (players m))
  else setPlayers m (players m ++ [fresh]).

(** [removePlayer(player)]: the entry is deleted first, then the current
    player (looked up in the shrunk map) is compared with the removed one. *)
Definition removePlayer (pid : string) (ballMoving : bool) (m : GameManager) : GameManager :=
  let m1 := setPlayers m (filter (fun p => negb (String.eqb (id p) pid)) (players m)) in
  let isCurrent := match getCurrentPlayer m1 with
                   | Some (_, cp) => String.eqb (id cp) pid
                   | None => false
                   end in
  if gameInProgress m1 && isCurrent then nextPlayerTurn ballMoving m1 else m1.

Definition resetScore (p : PlayerScore) : PlayerScore :=
  mkScore (id p) (golfEntity p) [] 0 0.

(** [startGame]: refused without players; otherwise scores reset, a new
    ball is created and hole 0 starts. *)
Definition startGame (m : GameManager) : Outcome :=
  match players m with
  | [] => Ok m
  | _ => startHole 0 (mkManager (map resetScore (players m)) (Num 0) 0 true (holes m) true)
  end.

(** A stable insertion of [x] by the comparator [a - b] on [key]. *)
Fixpoint insertBy {A} (key : A -> Z) (x : A) (l : list A) : list A :=
  match l with
  | [] => [x]
  | y :: t => if key x <=? key y then x :: l else y :: insertBy key x t
  end.

(** [Array.prototype.sort((a, b) => key(a) - key(b))], which is stable. *)
Definition sortBy {A} (key : A -> Z) (l : list A) : list A :=
  fold_right (insertBy key) [] l.

(** [_calculateFinalScores]. *)
Definition calculateFinalScores (m : GameManager) : list PlayerScore :=
  sortBy totalStrokes (players m).

(** One row of [_calculateCurrentLeaderboard]. *)
Record LeaderRow := mkRow {
  playerName : string;
  rowTotal : Z;
  rowHole : Z;
  rowStrokes : list (option Z)
}.

Definition calculateCurrentLeaderboard (m : GameManager) : list LeaderRow :=
  sortBy rowTotal
    (map (fun p => mkRow (id p) (totalStrokes p) (currentHole m + 1) (strokes p))
         (players m)).

(** [endGame]: the current player's turn ends, then [finalScores[0]] is the
    winner; with no entry at all, reading [winner.player] throws. *)
Definition endGame (m : GameManager) : Outcome :=
  if negb (gameInProgress m) then Ok m
  else
    let m1 := mkManager (players m) (currentPlayerIndex m) (currentHole m) false
                        (holes m) (golfBall m) in
    let m2 := match getCurrentPlayer m1 with
              | Some (k, _) => setPlayers m1 (updateEntity k endTurn (players m1))
              | None => m1
              end in
    match calculateFinalScores m2 with
    | [] => Throw m2 "TypeError: Cannot read properties of undefined"
    | _ => Ok m2
    end.

(** The winner reported by [endGame]: [finalScores[0]]. *)
Definition winner (m : GameManager) : option PlayerScore :=
  hd_error (calculateFinalScores m).

(** [_handleBallInHole]: records the shot count of the current player for
    the current hole; the boolean says whether the 3 s timer is armed. *)
Definition handleBallInHole (m : GameManager) : GameManager * bool :=
  if negb (gameInProgress m) then (m, false)
  else match getCurrentPlayer m with
       | None => (m, false)
       | Some (k, cp) =>
           let s := shotCount (golfEntity cp) in
           let h := currentHole m in
           let rec p := mkScore (id p) (golfEntity p) (Score.setIndex (strokes p) (Z.to_nat h) s)
                                (totalStrokes p + s) (Score.currentHole p) in
           (setPlayers m (updateAt k rec (players m)), true)
       end.

(** The 3 s timer armed by [_handleBallInHole]: [_startHole(_currentHole + 1)]. *)
Definition holeTimer (m : GameManager) : Outcome :=
  startHole (currentHole m + 1) m.

(** [_handleWaterHazard], on the manager's state: one penalty stroke for the
    current player.  The ball reset is a call into [GolfBallEntity]. *)
Definition handleWaterHazard (m : GameManager) : GameManager :=
  match getCurrentPlayer m with
  | None => m
  | Some (k, _) => setPlayers m (updateEntity k addPenalty (players m))
  end.

(** The input tick of the entity of entry [k]. *)
Definition tickPlayer (k : nat) (d : V3 Q) (i : Input) (m : GameManager) : GameManager :=
  setPlayers m (updateEntity k (fun e => fst (tick d i e)) (players m)).

(** Every call the server makes into the manager, and the timers it arms.
    Joining players get a fresh entity ([index.ts] builds one per join). *)
Inductive mstep : GameManager -> GameManager -> Prop :=
| ms_add pid mp w m : mstep m (addPlayer pid (newEntity mp w) m)
| ms_remove pid mv m : mstep m (removePlayer pid mv m)
| ms_startGame m : mstep m (stateOf (startGame m))
| ms_endGame m : mstep m (stateOf (endGame m))
| ms_next mv m : mstep m (nextPlayerTurn mv m)
| ms_inHole m : mstep m (fst (handleBallInHole m))
| ms_holeTimer m : mstep m (stateOf (holeTimer m))
| ms_water m : mstep m (handleWaterHazard m)
| ms_tick k d i m : mstep m (tickPlayer k d i m).

Inductive mreachable : GameManager -> Prop :=
| mr_init : mreachable initial
| mr_step m m' : mreachable m -> mstep m m' -> mreachable m'.

(** The id of the current player, if there is one. *)
Definition currentPlayerId (m : GameManager) : option string :=
  match getCurrentPlayer m with Some (_, p) => Some (id p) | None => None end.

(** The states after 1, 2, ..., [k] turn advances with the ball at rest. *)
Fixpoint turnAdvances (k : nat) (m : GameManager) : list GameManager :=
  match k with
  | O => []
  | S k' => let m' := nextPlayerTurn false m in m' :: turnAdvances k' m'
  end.

(** How many registered entities have an active turn. *)
Definition activeTurns (m : GameManager) : nat :=
  List.length (filter (fun p => isPlayerTurn (golfEntity p)) (players m)).

End Manager.

(** ** Course stamping ([buildRectangle], [buildCircle] of the entry point)

    Every call site passes integer corners, centres and radii, so
    coordinates are [Z].  A stamp is modelled by the sequence of
    [world.chunkLattice.setBlock(position, blockId)] calls it makes. *)

Module Course.

Definition SetBlock := (V3 Z * Z)%type.

(** [for (let v = lo; v <= hi; v++)]: the values [lo], [lo+1], ..., [hi]. *)
Definition zrange (lo hi : Z) : list Z :=
  map (fun k => lo + Z.of_nat k) (seq 0 (Z.to_nat (hi - lo + 1))).

Definition buildRectangle (corner1 corner2 : V3 Z) (blockId : Z) : list SetBlock :=
  let minX := Z.min (vx corner1) (vx corner2) in
  let maxX := Z.max (vx corner1) (vx corner2) in
  let minY := Z.min (vy corner1) (vy corner2) in
  let maxY := Z.max (vy corner1) (vy corner2) in
  let minZ := Z.min (vz corner1) (vz corner2) in
  let maxZ := Z.max (vz corner1) (vz corner2) in
  flat_map (fun x =>
    flat_map (fun y =>
      map (fun z => (mkV3 x y z, blockId)) (zrange minZ maxZ))
    (zrange minY maxY))
  (zrange minX maxX).

(** [Math.sqrt((x - cx) ** 2 + (z - cz) ** 2) <= radius].  Inside the loops
    [radius >= 0] (they are empty otherwise), and there the test is decided
    exactly by comparing squares; lemma [sqrt_le_iff_sq] below relates the
    two forms over the reals. *)
Definition withinRadius (center : V3 Z) (radius x z : Z) : bool :=
  (x - vx center) ^ 2 + (z - vz center) ^ 2 <=? radius * radius.

Definition buildCircle (center : V3 Z) (radius : Z) (blockId : Z) : list SetBlock :=
  flat_map (fun x =>
    flat_map (fun z =>
      if withinRadius center radius x z then [(mkV3 x (vy center) z, blockId)] else [])
    (zrange (vz center - radius) (vz center + radius)))
  (zrange (vx center - radius) (vx center + radius)).

(** The block lattice: the block id at each position, if one was set. *)
Definition World := V3 Z -> option Z.

Definition v3_eqb (p q : V3 Z) : bool :=
  (vx p =? vx q) && (vy p =? vy q) && (vz p =? vz q).

(** [world.chunkLattice.setBlock(position, blockId)], applied in order. *)
Definition applyWrites (w : World) (ws : list SetBlock) : World :=
  fold_left (fun w' '(p, b) => fun q => if v3_eqb q p then Some b else w' q) ws w.

(** [buildSimpleTree(world, position)]: a three-block trunk of block 1 and two
    rings of leaves (block 100) around the top, the centre being skipped. *)
Definition buildSimpleTree (position : V3 Z) : list SetBlock :=
  [(mkV3 (vx position) (vy position + 1) (vz position), 1);
   (mkV3 (vx position) (vy position + 2) (vz position), 1);
   (mkV3 (vx position) (vy position + 3) (vz position), 1)]
  ++ flat_map (fun dx =>
       flat_map (fun dz =>
         if (dx =? 0) && (dz =? 0) then []
         else [(mkV3 (vx position + dx) (vy position + 3) (vz position + dz), 100);
               (mkV3 (vx position + dx) (vy position + 4) (vz position + dz), 100)])
       (zrange (-1) 1))
     (zrange (-1) 1).

End Course.

(** ** Concrete games *)

Module Scenarios.
Import Player Score Manager.

Definition facing : V3 Q := mkV3 1%Q 0%Q 0%Q.
Definition press : Input := mkInput true false false.
Definition release : Input := mkInput false false false.

(** The player at position [k] holds space for one tick, then releases it. *)
Definition shoot (k : nat) (m : GameManager) : GameManager :=
  tickPlayer k facing release (tickPlayer k facing press m).

(** One player, "a", joins and starts a game. *)
Definition soloStart : GameManager :=
  stateOf (startGame (addPlayer "a" (newEntity 100 true) initial)).

(** "a" holes out with one shot and the 3 s timer fires. *)
Definition holeOut (m : GameManager) : GameManager :=
  stateOf (holeTimer (fst (handleBallInHole (shoot 0 m)))).

(** "a" sinks the ball on the last hole (index 2). *)
Definition lastHoleSunk : GameManager :=
  fst (handleBallInHole (shoot 0 (holeOut (holeOut soloStart)))).

(** On hole 0, "a" sinks the ball; before the 3 s timer fires, the
    [golf-shot] timer restarts the turn, "a" shoots again and the ball
    enters the hole a second time. *)
Definition holeRecordedTwice : GameManager :=
  let m1 := fst (handleBallInHole (shoot 0 soloStart)) in
  let m2 := nextPlayerTurn false m1 in
  fst (handleBallInHole (shoot 0 m2)).

(** Two players, "a" then "b": "a" shoots, the turn passes to "b", "b"
    shoots, the turn comes back to "a", and "a" sinks the ball with the
    second shot "a" takes on the hole. *)
Definition twoTurns : GameManager :=
  let m0 := stateOf (startGame (addPlayer "b" (newEntity 100 true)
                                 (addPlayer "a" (newEntity 100 true) initial))) in
  let m1 := nextPlayerTurn false (shoot 0 m0) in
  let m2 := nextPlayerTurn false (shoot 1 m1) in
  fst (handleBallInHole (shoot 0 m2)).

(** Three players join and a game starts. *)
Definition trioStart : GameManager :=
  stateOf (startGame (addPlayer "c" (newEntity 100 true)
                        (addPlayer "b" (newEntity 100 true)
                           (addPlayer "a" (newEntity 100 true) initial)))).

(** A fresh entity that got the ball, started its turn and held space for
    one tick: it is charging. *)
Definition chargingEntity : Entity :=
  fst (tick facing press (startTurn (setGolfBall (newEntity 100 true)))).

End Scenarios.

(* ================================================================= *)
(** * Properties of the player entity *)

Module PlayerFacts.
Import Player.

Local Open Scope Q_scope.

Lemma inv_keep mp e c a b n t w :
  power_inv mp e -> power_inv mp (setWith e (currentPower e) c a b n t w).
Proof. unfold power_inv, setWith; simpl; tauto. Qed.

Lemma inv_zero mp e c a b n t w :
  0 <= mp -> maxPower e = mp -> power_inv mp (setWith e 0 c a b n t w).
Proof.
  intros Hmp Hm; unfold power_inv, setWith; simpl.
  split; [exact Hm|split; [apply Qle_refl|exact Hmp]].
Qed.

Lemma inv_setGolfBall mp e : power_inv mp e -> power_inv mp (setGolfBall e).
Proof. apply inv_keep. Qed.

Lemma inv_startAiming mp e : power_inv mp e -> power_inv mp (startAiming e).
Proof. intros H; unfold startAiming; destruct (hasBall e); simpl; auto using inv_keep. Qed.

Lemma inv_stopAiming mp e : power_inv mp e -> power_inv mp (stopAiming e).
Proof. apply inv_keep. Qed.

Lemma inv_toggleAiming mp e : power_inv mp e -> power_inv mp (toggleAiming e).
Proof.
  intros H; unfold toggleAiming; destruct (isAiming e);
    auto using inv_stopAiming, inv_startAiming.
Qed.

Lemma inv_startTurn mp e : power_inv mp e -> power_inv mp (startTurn e).
Proof. intros H; apply inv_startAiming, inv_keep, H. Qed.

Lemma inv_endTurn mp e : 0 <= mp -> power_inv mp e -> power_inv mp (endTurn e).
Proof. intros Hmp H; apply inv_zero; [exact Hmp | apply H]. Qed.

Lemma inv_startCharging mp e :
  0 <= mp -> power_inv mp e -> power_inv mp (startCharging e).
Proof. intros Hmp H; apply inv_zero; [exact Hmp | apply H]. Qed.

Lemma inv_penalty mp e : power_inv mp e -> power_inv mp (addPenalty e).
Proof. apply inv_keep. Qed.

Lemma inv_updatePower mp e :
  0 <= mp -> power_inv mp e -> power_inv mp (updatePower e).
Proof.
  intros Hmp [Hm [H0 H1]]; unfold updatePower.
  destruct (isCharging e); simpl; [|repeat split; assumption].
  unfold power_inv, setWith, powerIncrement; simpl; rewrite Hm.
  split; [reflexivity|split].
  - apply Q.min_glb; [|exact Hmp].
    apply (Qle_trans _ (0 + 0)); [discriminate|].
    apply Qplus_le_compat; [exact H0|].
    apply Qle_shift_div_l; [reflexivity|].
    rewrite Qmult_0_l; exact Hmp.
  - apply Q.le_min_r.
Qed.

Lemma inv_executeShot mp d e :
  0 <= mp -> power_inv mp e -> power_inv mp (fst (executeShot d e)).
Proof.
  intros Hmp H; unfold executeShot.
  destruct (negb (isCharging e) || negb (hasBall e) || negb (hasWorld e)); simpl.
  - exact H.
  - apply inv_stopAiming, inv_zero; [exact Hmp | apply H].
Qed.

Lemma inv_tick mp d i e :
  0 <= mp -> power_inv mp e -> power_inv mp (fst (tick d i e)).
Proof.
  intros Hmp H; unfold tick.
  destruct (isPlayerTurn e); simpl; [|exact H].
  assert (H1 : power_inv mp
     (fst (if sp i && negb (isCharging e) && isAiming e then (startCharging e, [])
           else if negb (sp i) && isCharging e then executeShot d e else (e, [])))).
  { destruct (sp i && negb (isCharging e) && isAiming e); simpl;
      [apply inv_startCharging; assumption|].
    destruct (negb (sp i) && isCharging e); simpl;
      [apply inv_executeShot; assumption | exact H]. }
  destruct (if sp i && negb (isCharging e) && isAiming e then (startCharging e, [])
            else if negb (sp i) && isCharging e then executeShot d e else (e, []))
    as [e1 fx1]; simpl in *.
  assert (H2 : power_inv mp (if isCharging e1 then updatePower e1 else e1)).
  { destruct (isCharging e1); [apply inv_updatePower|]; assumption. }
  destruct (f i && isPlayerTurn (if isCharging e1 then updatePower e1 else e1));
    simpl; [apply inv_toggleAiming|]; exact H2.
Qed.

Lemma inv_step mp e e' : 0 <= mp -> power_inv mp e -> step e e' -> power_inv mp e'.
Proof.
  intros Hmp H Hs; destruct Hs;
    eauto using inv_setGolfBall, inv_startTurn, inv_endTurn, inv_tick, inv_penalty.
Qed.

Lemma reachable_power_inv mp e : 0 <= mp -> reachable mp e -> power_inv mp e.
Proof.
  intros Hmp Hr; induction Hr as [w|e e' Hr IH Hs].
  - unfold power_inv, newEntity; simpl; split; [reflexivity|split; [apply Qle_refl|exact Hmp]].
  - eapply inv_step; eauto.
Qed.

End PlayerFacts.

(* ================================================================= *)
(** * The claims on the player entity *)

Module PlayerClaims.
Import Player PlayerFacts.

Local Open Scope Q_scope.

(** C5 (power charge): for a player entity built with a maximum power
    [mp >= 0] (the option is documented as 0-100; the server passes 100),
    every reachable state has [0 <= currentPower <= maxPower]; an input tick
    that keeps space held while charging sets the power to
    [min(power + maxPower/(60*2), maxPower)]; and the power is 0 after
    charging starts, after the turn ends, and after a tick that releases the
    shot. *)
Theorem power_charge_invariant (mp : Q) (e : Entity) (d : V3 Q) (i : Input)
  (Hmp : 0 <= mp) (Hr : reachable mp e) :
  (0 <= currentPower e /\ currentPower e <= maxPower e)
  /\ (isPlayerTurn e = true -> isCharging e = true -> sp i = true ->
      currentPower (fst (tick d i e)) = Qmin (currentPower e + mp / (60 * 2)) mp)
  /\ currentPower (startCharging e) = 0
  /\ currentPower (endTurn e) = 0
  /\ (isPlayerTurn e = true -> isCharging e = true -> hasBall e = true ->
      hasWorld e = true -> sp i = false -> currentPower (fst (tick d i e)) = 0).
Proof.
  destruct (reachable_power_inv mp e Hmp Hr) as [Hm [H0 H1]].
  split; [rewrite Hm; split; assumption|].
  split; [|split; [reflexivity|split; [reflexivity|]]].
  - intros Ht Hc Hs; subst mp.
    destruct e as [mx p c a b n t w]; simpl in *; subst.
    unfold tick, updatePower, powerIncrement, toggleAiming, startAiming, stopAiming;
      simpl; rewrite Hs; simpl.
    destruct (f i), a, b; reflexivity.
  - intros Ht Hc Hb Hw Hs.
    destruct e as [mx p c a b n t w]; simpl in *; subst.
    unfold tick, executeShot, toggleAiming, startAiming, stopAiming; simpl; rewrite Hs; simpl.
    destruct (f i); reflexivity.
Qed.

(** C6 (shot execution): on a reachable entity with [maxPower = mp > 0], an
    input tick during the player's turn that releases space while charging,
    with a ball assigned (and the entity spawned in a world, as it is
    whenever the engine delivers input ticks), hits the ball exactly once,
    in the camera's facing direction [d] with force
    [(currentPower / maxPower) * 50], which lies in [0, 50]; the shot count
    grows by one and charging ends.  When the entity is not charging, has
    no ball, or it is not its turn, a tick hits nothing and leaves the shot
    count unchanged. *)
Theorem shot_execution (mp : Q) (e : Entity) (d : V3 Q) (i : Input)
  (Hmp : 0 < mp) (Hr : reachable mp e) :
  (isPlayerTurn e = true -> isCharging e = true -> hasBall e = true ->
   hasWorld e = true -> sp i = false ->
   hits (snd (tick d i e)) = [Hit d ((currentPower e / maxPower e) * 50)]
   /\ shotCount (fst (tick d i e)) = (shotCount e + 1)%Z
   /\ isCharging (fst (tick d i e)) = false
   /\ 0 <= (currentPower e / maxPower e) * 50
   /\ (currentPower e / maxPower e) * 50 <= 50)
  /\ (isCharging e = false \/ hasBall e = false \/ isPlayerTurn e = false ->
      hits (snd (tick d i e)) = [] /\ shotCount (fst (tick d i e)) = shotCount e).
Proof.
  destruct (reachable_power_inv mp e (Qlt_le_weak _ _ Hmp) Hr) as [Hm [H0 H1]].
  split.
  - intros Ht Hc Hb Hw Hs.
    assert (Hq : currentPower e / maxPower e <= 1).
    { rewrite Hm; apply Qle_shift_div_r; [exact Hmp|].
      rewrite Qmult_1_l; exact H1. }
    assert (Hq0 : 0 <= currentPower e / maxPower e).
    { rewrite Hm; apply Qle_shift_div_l; [exact Hmp|].
      rewrite Qmult_0_l; exact H0. }
    split; [|split; [|split; [|split]]].
    + destruct e as [mx p c a b n t w]; simpl in *; subst.
      unfold tick, executeShot, shotForce, toggleAiming, startAiming, stopAiming;
        simpl; rewrite Hs; simpl.
      destruct (f i), (r i); reflexivity.
    + destruct e as [mx p c a b n t w]; simpl in *; subst.
      unfold tick, executeShot, toggleAiming, startAiming, stopAiming; simpl; rewrite Hs; simpl.
      destruct (f i); reflexivity.
    + destruct e as [mx p c a b n t w]; simpl in *; subst.
      unfold tick, executeShot, toggleAiming, startAiming, stopAiming; simpl; rewrite Hs; simpl.
      destruct (f i); reflexivity.
    + apply Qmult_le_0_compat; [exact Hq0 | discriminate].
    + apply (Qle_trans _ (1 * 50)); [|apply Qle_refl].
      apply Qmult_le_compat_r; [exact Hq | discriminate].
  - intros Hcase.
    destruct e as [mx p c a b n t w]; simpl in *.
    unfold tick; simpl.
    destruct t; simpl; [|split; reflexivity].
    destruct Hcase as [-> | [-> | Ht]]; [| |discriminate].
    + destruct (sp i), a; simpl;
        unfold updatePower, toggleAiming, startAiming, stopAiming; simpl;
        destruct (f i), (r i), b; simpl; split; reflexivity.
    + destruct (sp i), c, a; simpl;
        unfold updatePower, toggleAiming, startAiming, stopAiming, executeShot; simpl;
        destruct (f i), (r i); simpl; split; reflexivity.
Qed.

End PlayerClaims.

(* ================================================================= *)
(** * Properties of the course stamps *)

Module CourseFacts.
Import Course.

Lemma in_zrange lo hi v : In v (zrange lo hi) <-> lo <= v <= hi.
Proof.
  unfold zrange; rewrite in_map_iff; split.
  - intros [k [<- Hk]]; apply in_seq in Hk; lia.
  - intros Hv; exists (Z.to_nat (v - lo)); split; [lia|].
    apply in_seq; lia.
Qed.

Lemma in_buildRectangle c1 c2 blockId p b :
  In (p, b) (buildRectangle c1 c2 blockId) <->
  b = blockId
  /\ Z.min (vx c1) (vx c2) <= vx p <= Z.max (vx c1) (vx c2)
  /\ Z.min (vy c1) (vy c2) <= vy p <= Z.max (vy c1) (vy c2)
  /\ Z.min (vz c1) (vz c2) <= vz p <= Z.max (vz c1) (vz c2).
Proof.
  unfold buildRectangle; rewrite in_flat_map; split.
  - intros [x [Hx Hin]]; rewrite in_flat_map in Hin; destruct Hin as [y [Hy Hin]].
    rewrite in_map_iff in Hin; destruct Hin as [z [Heq Hz]]; inversion Heq; subst; simpl.
    apply in_zrange in Hx, Hy, Hz; tauto.
  - intros [-> [Hx [Hy Hz]]]; exists (vx p); split; [apply in_zrange; exact Hx|].
    rewrite in_flat_map; exists (vy p); split; [apply in_zrange; exact Hy|].
    rewrite in_map_iff; exists (vz p); split; [destruct p; reflexivity|].
    apply in_zrange; exact Hz.
Qed.

(** [Math.sqrt(n) <= r] over the reals agrees with [n <= r * r] when
    [n, r >= 0]. *)
Lemma sqrt_le_iff_sq (n r : Z) :
  0 <= n -> 0 <= r -> (sqrt (IZR n) <= IZR r)%R <-> n <= r * r.
Proof.
  intros Hn Hr; split.
  - intros Hs; apply le_IZR; rewrite mult_IZR.
    rewrite <- (sqrt_sqrt (IZR n)) by (apply IZR_le; exact Hn).
    apply Rmult_le_compat; try apply sqrt_pos; exact Hs.
  - intros Hle; rewrite <- (sqrt_square (IZR r)) by (apply IZR_le; exact Hr).
    apply sqrt_le_1_alt; rewrite <- mult_IZR; apply IZR_le; exact Hle.
Qed.

Lemma in_buildCircle center radius blockId p b :
  In (p, b) (buildCircle center radius blockId) <->
  b = blockId /\ vy p = vy center
  /\ vx center - radius <= vx p <= vx center + radius
  /\ vz center - radius <= vz p <= vz center + radius
  /\ (sqrt (IZR ((vx p - vx center) ^ 2 + (vz p - vz center) ^ 2)) <= IZR radius)%R.
Proof.
  unfold buildCircle, withinRadius; rewrite in_flat_map; split.
  - intros [x [Hx Hin]]; rewrite in_flat_map in Hin; destruct Hin as [z [Hz Hin]].
    apply in_zrange in Hx, Hz.
    destruct (Z.leb_spec ((x - vx center) ^ 2 + (z - vz center) ^ 2) (radius * radius))
      as [Hd|Hd]; [|contradiction].
    destruct Hin as [Heq|[]]; inversion Heq; subst; simpl.
    repeat split; try lia.
    apply sqrt_le_iff_sq; [nia | lia | exact Hd].
  - intros [-> [Hy [Hx [Hz Hd]]]]; exists (vx p); split; [apply in_zrange; exact Hx|].
    rewrite in_flat_map; exists (vz p); split; [apply in_zrange; exact Hz|].
    apply sqrt_le_iff_sq in Hd; [|nia|lia].
    apply Z.leb_le in Hd; rewrite Hd; left.
    destruct p; simpl in *; subst; reflexivity.
Qed.

End CourseFacts.

Module CourseClaims.
Import Course CourseFacts.

(** C7 (course stamping): [buildRectangle(c1, c2, id)] sets block [id] at
    exactly the lattice points of the box spanned by [min]/[max] of the
    corners' coordinates, and makes the very same [setBlock] calls when its
    corners are swapped; [buildCircle(center, r, id)] sets block [id] at
    exactly the points [(x, center.y, z)] of the enclosing square whose
    Euclidean distance from [(center.x, center.z)] is at most [r]. *)
Theorem course_stamping :
  (forall c1 c2 blockId p b,
     In (p, b) (buildRectangle c1 c2 blockId) <->
     b = blockId
     /\ Z.min (vx c1) (vx c2) <= vx p <= Z.max (vx c1) (vx c2)
     /\ Z.min (vy c1) (vy c2) <= vy p <= Z.max (vy c1) (vy c2)
     /\ Z.min (vz c1) (vz c2) <= vz p <= Z.max (vz c1) (vz c2))
  /\ (forall c1 c2 blockId, buildRectangle c1 c2 blockId = buildRectangle c2 c1 blockId)
  /\ (forall center radius blockId p b,
       In (p, b) (buildCircle center radius blockId) <->
       b = blockId /\ vy p = vy center
       /\ vx center - radius <= vx p <= vx center + radius
       /\ vz center - radius <= vz p <= vz center + radius
       /\ (sqrt (IZR ((vx p - vx center) ^ 2 + (vz p - vz center) ^ 2)) <= IZR radius)%R).
Proof.
  split; [exact in_buildRectangle|split; [|exact in_buildCircle]].
  intros c1 c2 blockId; unfold buildRectangle.
  rewrite (Z.min_comm (vx c2)), (Z.max_comm (vx c2)), (Z.min_comm (vy c2)),
          (Z.max_comm (vy c2)), (Z.min_comm (vz c2)), (Z.max_comm (vz c2)).
  reflexivity.
Qed.

End CourseClaims.

(* ================================================================= *)
(** * Properties of the game manager *)

Module ManagerFacts.
Import Player Score Manager.

Definition cnt (l : list PlayerScore) : nat :=
  List.length (filter (fun p => isPlayerTurn (golfEntity p)) l).

Lemma cnt_cons p l :
  cnt (p :: l) = ((if isPlayerTurn (golfEntity p) then 1 else 0) + cnt l)%nat.
Proof. unfold cnt; simpl; destruct (isPlayerTurn (golfEntity p)); reflexivity. Qed.

Lemma cnt_app l1 l2 : cnt (l1 ++ l2) = (cnt l1 + cnt l2)%nat.
Proof. unfold cnt; rewrite filter_app, length_app; reflexivity. Qed.

Lemma cnt_map_off {A} (h : A -> PlayerScore) l :
  (forall x, isPlayerTurn (golfEntity (h x)) = false) -> cnt (map h l) = 0%nat.
Proof.
  intros Hh; induction l as [|x t IH]; [reflexivity|].
  cbn [map]; rewrite cnt_cons, Hh; exact IH.
Qed.

Lemma cnt_update_mapOthers k g h l :
  (forall x, isPlayerTurn (golfEntity (h x)) = false) ->
  (cnt (updateAt k g (mapOthers k h l)) <= 1)%nat.
Proof.
  intros Hh; revert k; induction l as [|x t IH]; intros [|k];
    cbn [mapOthers updateAt]; try (unfold cnt; simpl; lia).
  - rewrite cnt_cons, cnt_map_off by exact Hh.
    destruct (isPlayerTurn (golfEntity (g x))); lia.
  - rewrite cnt_cons, Hh; apply IH.
Qed.

Lemma updateAt_compose {A} k (g1 g2 : A -> A) l :
  updateAt k g1 (updateAt k g2 l) = updateAt k (fun x => g1 (g2 x)) l.
Proof. revert k; induction l as [|x t IH]; intros [|k]; simpl; f_equal; auto. Qed.

Lemma cnt_updateAt_mono k g l :
  (forall x, isPlayerTurn (golfEntity (g x)) = true -> isPlayerTurn (golfEntity x) = true) ->
  (cnt (updateAt k g l) <= cnt l)%nat.
Proof.
  intros Hg; revert k; induction l as [|x t IH]; intros [|k];
    cbn [updateAt]; try (unfold cnt; simpl; lia).
  - rewrite !cnt_cons.
    destruct (isPlayerTurn (golfEntity (g x))) eqn:E; [rewrite (Hg x E)|]; lia.
  - rewrite !cnt_cons; specialize (IH k); lia.
Qed.

Lemma cnt_filter f l : (cnt (filter f l) <= cnt l)%nat.
Proof.
  induction l as [|x t IH]; [unfold cnt; simpl; lia|].
  cbn [filter]; destruct (f x); rewrite ?cnt_cons; destruct (isPlayerTurn (golfEntity x)); lia.
Qed.

Lemma tick_isPlayerTurn d i e : isPlayerTurn (fst (tick d i e)) = isPlayerTurn e.
Proof.
  destruct e as [mx p c a b n t w]; unfold tick; simpl.
  destruct t; simpl; [|reflexivity].
  destruct (sp i), c, a, b, w, (f i); reflexivity.
Qed.

Lemma startTurn_isPlayerTurn e : isPlayerTurn (startTurn e) = true.
Proof. destruct e; unfold startTurn, startAiming; simpl; destruct hasBall0; reflexivity. Qed.

Lemma spt_le1 m : (activeTurns m <= 1)%nat -> (activeTurns (startPlayerTurn m) <= 1)%nat.
Proof.
  unfold startPlayerTurn, activeTurns; intros H.
  destruct (getCurrentPlayer m) as [[k cp]|]; [|exact H].
  unfold setPlayers; simpl; fold (cnt (updateEntity k startTurn
    (if golfBall m then updateEntity k setGolfBall
       (mapOthers k (fun p => withEntity p (endTurn (golfEntity p))) (players m))
     else mapOthers k (fun p => withEntity p (endTurn (golfEntity p))) (players m)))).
  unfold updateEntity; destruct (golfBall m); [rewrite updateAt_compose|];
    apply cnt_update_mapOthers; intros x; reflexivity.
Qed.

Lemma startHole_le1 i m :
  (activeTurns m <= 1)%nat -> (activeTurns (stateOf (startHole i m)) <= 1)%nat.
Proof.
  intros H; unfold startHole.
  destruct (Z.of_nat (List.length (holes m)) <=? i); simpl; [exact H|].
  apply spt_le1; exact H.
Qed.

Lemma next_le1 mv m :
  (activeTurns m <= 1)%nat -> (activeTurns (nextPlayerTurn mv m) <= 1)%nat.
Proof. intros H; unfold nextPlayerTurn; destruct mv; [exact H|]. apply spt_le1; exact H. Qed.

Lemma activeTurns_cnt m : activeTurns m = cnt (players m).
Proof. reflexivity. Qed.

Lemma addPlayer_le1 pid mp w m :
  (activeTurns m <= 1)%nat -> (activeTurns (addPlayer pid (newEntity mp w) m) <= 1)%nat.
Proof.
  rewrite !activeTurns_cnt; intros H; unfold addPlayer.
  destruct (existsb _ (players m)); cbn [setPlayers players].
  - enough (Hle : (cnt (map (fun p => if String.eqb (id p) pid
                             then mkScore pid (newEntity mp w) [] 0 0 else p) (players m))
                   <= cnt (players m))%nat) by lia.
    clear H; induction (players m) as [|x t IH]; [unfold cnt; simpl; lia|].
    cbn [map]; rewrite !cnt_cons; destruct (String.eqb (id x) pid);
      cbn [golfEntity newEntity isPlayerTurn]; destruct (isPlayerTurn (golfEntity x)); lia.
  - rewrite cnt_app, cnt_cons; unfold cnt at 2; simpl; lia.
Qed.

Lemma removePlayer_le1 pid mv m :
  (activeTurns m <= 1)%nat -> (activeTurns (removePlayer pid mv m) <= 1)%nat.
Proof.
  intros H; unfold removePlayer.
  assert (H1 : (activeTurns (setPlayers m (filter (fun p => negb (String.eqb (id p) pid))
                 (players m))) <= 1)%nat).
  { rewrite activeTurns_cnt in *; cbn [setPlayers players].
    pose proof (cnt_filter (fun p => negb (String.eqb (id p) pid)) (players m)); lia. }
  destruct (_ && _); [apply next_le1|]; exact H1.
Qed.

Lemma cnt_map_reset l : cnt (map resetScore l) = cnt l.
Proof.
  induction l as [|x t IH]; [reflexivity|]; cbn [map]; rewrite !cnt_cons, IH; reflexivity.
Qed.

Lemma startGame_le1 m :
  (activeTurns m <= 1)%nat -> (activeTurns (stateOf (startGame m)) <= 1)%nat.
Proof.
  intros H; unfold startGame; destruct (players m) as [|p0 t] eqn:E; [exact H|].
  apply startHole_le1; rewrite activeTurns_cnt in *; cbn [players].
  rewrite cnt_map_reset, <- E; exact H.
Qed.

Lemma endGame_le1 m :
  (activeTurns m <= 1)%nat -> (activeTurns (stateOf (endGame m)) <= 1)%nat.
Proof.
  intros H; unfold endGame; destruct (gameInProgress m); [|exact H]; cbn [negb].
  set (m1 := mkManager (players m) (currentPlayerIndex m) (currentHole m) false
                       (holes m) (golfBall m)).
  set (m2 := match getCurrentPlayer m1 with
             | Some (k, _) => setPlayers m1 (updateEntity k endTurn (players m1))
             | None => m1 end).
  assert (H2 : (activeTurns m2 <= 1)%nat).
  { subst m2; destruct (getCurrentPlayer m1) as [[k cp]|]; [|exact H].
    rewrite activeTurns_cnt in *; cbn [setPlayers players m1].
    pose proof (cnt_updateAt_mono k (fun p => withEntity p (endTurn (golfEntity p))) (players m)
                  (fun x Hx => ltac:(discriminate Hx))); unfold updateEntity; lia. }
  destruct (calculateFinalScores m2); exact H2.
Qed.

Lemma inHole_le1 m :
  (activeTurns m <= 1)%nat -> (activeTurns (fst (handleBallInHole m)) <= 1)%nat.
Proof.
  intros H; unfold handleBallInHole; destruct (gameInProgress m); [|exact H]; cbn [negb].
  destruct (getCurrentPlayer m) as [[k cp]|]; [|exact H]; cbn [fst].
  rewrite activeTurns_cnt in *; cbn [setPlayers players].
  eapply Nat.le_trans; [apply cnt_updateAt_mono|exact H]; intros x Hx; exact Hx.
Qed.

Lemma water_le1 m :
  (activeTurns m <= 1)%nat -> (activeTurns (handleWaterHazard m) <= 1)%nat.
Proof.
  intros H; unfold handleWaterHazard; destruct (getCurrentPlayer m) as [[k cp]|]; [|exact H].
  rewrite activeTurns_cnt in *; cbn [setPlayers players].
  eapply Nat.le_trans; [apply cnt_updateAt_mono|exact H]; intros x Hx; exact Hx.
Qed.

Lemma tick_le1 k d i m :
  (activeTurns m <= 1)%nat -> (activeTurns (tickPlayer k d i m) <= 1)%nat.
Proof.
  intros H; unfold tickPlayer; rewrite activeTurns_cnt in *; cbn [setPlayers players].
  eapply Nat.le_trans; [apply cnt_updateAt_mono|exact H].
  intros x Hx; cbn [withEntity golfEntity] in Hx; rewrite tick_isPlayerTurn in Hx; exact Hx.
Qed.

Lemma mstep_le1 m m' : (activeTurns m <= 1)%nat -> mstep m m' -> (activeTurns m' <= 1)%nat.
Proof.
  intros H Hs; destruct Hs.
  - apply addPlayer_le1; exact H.
  - apply removePlayer_le1; exact H.
  - apply startGame_le1; exact H.
  - apply endGame_le1; exact H.
  - apply next_le1; exact H.
  - apply inHole_le1; exact H.
  - apply startHole_le1; exact H.
  - apply water_le1; exact H.
  - apply tick_le1; exact H.
Qed.

Lemma reachable_le1 m : mreachable m -> (activeTurns m <= 1)%nat.
Proof.
  induction 1 as [|m m' Hr IH Hs]; [unfold activeTurns; simpl; lia|].
  eapply mstep_le1; eauto.
Qed.

(** ** Turn order *)

Lemma ids_mapOthers k h l :
  (forall x, id (h x) = id x) -> map id (mapOthers k h l) = map id l.
Proof.
  intros Hh; revert k; induction l as [|x t IH]; intros [|k]; cbn [mapOthers map];
    [reflexivity|reflexivity| |rewrite Hh, IH; reflexivity].
  f_equal; rewrite map_map; apply map_ext; exact Hh.
Qed.

Lemma ids_updateAt k g l :
  (forall x, id (g x) = id x) -> map id (updateAt k g l) = map id l.
Proof.
  intros Hg; revert k; induction l as [|x t IH]; intros [|k]; cbn [updateAt map];
    [reflexivity|reflexivity|rewrite Hg; reflexivity|rewrite IH; reflexivity].
Qed.

Lemma spt_ids m : map id (players (startPlayerTurn m)) = map id (players m).
Proof.
  unfold startPlayerTurn; destruct (getCurrentPlayer m) as [[k cp]|]; [|reflexivity].
  cbn [setPlayers players]; unfold updateEntity.
  rewrite ids_updateAt by reflexivity.
  destruct (golfBall m); [rewrite ids_updateAt by reflexivity|];
    apply ids_mapOthers; reflexivity.
Qed.

Lemma spt_index m : currentPlayerIndex (startPlayerTurn m) = currentPlayerIndex m.
Proof. unfold startPlayerTurn; destruct (getCurrentPlayer m) as [[k cp]|]; reflexivity. Qed.

Lemma next_ids m : map id (players (nextPlayerTurn false m)) = map id (players m).
Proof. unfold nextPlayerTurn; rewrite spt_ids; reflexivity. Qed.

Lemma next_index m i :
  currentPlayerIndex m = Num i -> 0 <= i -> (0 < List.length (players m))%nat ->
  currentPlayerIndex (nextPlayerTurn false m) = Num ((i + 1) mod Z.of_nat (List.length (players m))).
Proof.
  intros Hi H0 Hn; unfold nextPlayerTurn; rewrite spt_index; cbn [setIndex currentPlayerIndex].
  rewrite Hi; destruct (Z.eqb_spec (Z.of_nat (List.length (players m))) 0); [lia|].
  rewrite Z.rem_mod_nonneg by lia; reflexivity.
Qed.

Lemma currentPlayerId_at m z :
  currentPlayerIndex m = Num z -> 0 <= z -> z < Z.of_nat (List.length (players m)) ->
  currentPlayerId m = nth_error (map id (players m)) (Z.to_nat z).
Proof.
  intros Hz H0 H1; unfold currentPlayerId, getCurrentPlayer; rewrite Hz.
  destruct (Z.ltb_spec z 0); [lia|].
  rewrite nth_error_map.
  destruct (nth_error (players m) (Z.to_nat z)) eqn:E; [reflexivity|].
  apply nth_error_None in E; lia.
Qed.

Lemma turnAdvances_ids k m i :
  currentPlayerIndex m = Num i -> 0 <= i -> (0 < List.length (players m))%nat ->
  map currentPlayerId (turnAdvances k m) =
  map (fun j => nth_error (map id (players m))
                  (Z.to_nat ((i + 1 + Z.of_nat j) mod Z.of_nat (List.length (players m)))))
      (seq 0 k).
Proof.
  revert m i; induction k as [|k IH]; intros m i Hi H0 Hn; [reflexivity|].
  set (n := Z.of_nat (List.length (players m))).
  cbn [turnAdvances map seq].
  assert (Hlen : List.length (players (nextPlayerTurn false m)) = List.length (players m)).
  { rewrite <- (length_map id (players (nextPlayerTurn false m))), next_ids, length_map.
    reflexivity. }
  pose proof (next_index m i Hi H0 Hn) as Hix.
  assert (Hb : 0 <= (i + 1) mod n < n) by (apply Z.mod_pos_bound; lia).
  f_equal.
  - rewrite (currentPlayerId_at _ ((i + 1) mod n)); [| exact Hix | lia | rewrite Hlen; lia].
    rewrite next_ids, Z.add_0_r; reflexivity.
  - rewrite (IH _ ((i + 1) mod n)); [| exact Hix | lia | rewrite Hlen; exact Hn].
    rewrite <- seq_shift, map_map, next_ids, Hlen.
    apply map_ext; intros j; f_equal; f_equal; fold n.
    rewrite <- !Z.add_assoc, Z.add_mod_idemp_l by lia; f_equal; lia.
Qed.

Lemma map_nth_error_seq {A} (l : list A) :
  map (nth_error l) (seq 0 (List.length l)) = map Some l.
Proof.
  induction l as [|x t IH]; [reflexivity|].
  cbn [List.length seq map nth_error]; f_equal.
  rewrite <- seq_shift, map_map; exact IH.
Qed.

Lemma rotation_perm (n : nat) (i : Z) :
  (0 < n)%nat ->
  Permutation (map (fun j => Z.to_nat ((i + 1 + Z.of_nat j) mod Z.of_nat n)) (seq 0 n)) (seq 0 n).
Proof.
  intros Hn; apply NoDup_Permutation_bis.
  - apply NoDup_map_NoDup_ForallPairs; [|apply seq_NoDup].
    intros a b Ha Hb Heq; apply in_seq in Ha, Hb.
    assert (Hm : (i + 1 + Z.of_nat a) mod Z.of_nat n = (i + 1 + Z.of_nat b) mod Z.of_nat n).
    { pose proof (Z.mod_pos_bound (i + 1 + Z.of_nat a) (Z.of_nat n)).
      pose proof (Z.mod_pos_bound (i + 1 + Z.of_nat b) (Z.of_nat n)). lia. }
    rewrite (Z.mod_eq (i + 1 + Z.of_nat a)), (Z.mod_eq (i + 1 + Z.of_nat b)) in Hm by lia.
    assert (Hq : (i + 1 + Z.of_nat a) / Z.of_nat n = (i + 1 + Z.of_nat b) / Z.of_nat n) by nia.
    rewrite Hq in Hm; lia.
  - rewrite length_map; lia.
  - intros x Hx; apply in_map_iff in Hx; destruct Hx as [j [<- _]]; apply in_seq.
    pose proof (Z.mod_pos_bound (i + 1 + Z.of_nat j) (Z.of_nat n)); lia.
Qed.

(** ** Shot counting *)

Lemma tick_shotCount d i e :
  shotCount (fst (tick d i e)) = shotCount e + Z.of_nat (List.length (hits (snd (tick d i e)))).
Proof.
  destruct e as [mx p c a b n t w]; unfold tick.
  destruct t; cbn [negb isPlayerTurn]; [|simpl; lia].
  destruct (sp i), c, a, b, w, (f i), (r i);
    unfold executeShot, updatePower, toggleAiming, startAiming, stopAiming, startCharging, hits;
    simpl; lia.
Qed.

Lemma startTurn_shotCount e : shotCount (startTurn e) = 0.
Proof. destruct e; unfold startTurn, startAiming; simpl; destruct hasBall0; reflexivity. Qed.

Lemma runLog_shotCount evs e :
  shotCount (fst (runLog evs e)) =
  match afterLastStart (snd (runLog evs e)) with
  | Some s => strokesIn s
  | None => shotCount e + strokesIn (snd (runLog evs e))
  end.
Proof.
  revert e; induction evs as [|ev t IH]; intros e; [simpl; lia|].
  cbn [runLog]; destruct (applyEvent ev e) as [e1 fx] eqn:Ea.
  specialize (IH e1); destruct (runLog t e1) as [e2 log]; cbn [fst snd afterLastStart] in *.
  destruct (afterLastStart log) as [s|]; [exact IH|].
  rewrite IH; destruct ev; cbn [applyEvent] in Ea; inversion Ea; subst; cbn [isStartTurn strokesIn].
  - destruct e; unfold setGolfBall; simpl; unfold hits; simpl; lia.
  - rewrite startTurn_shotCount; lia.
  - destruct e; unfold endTurn; simpl; unfold hits; simpl; lia.
  - pose proof (tick_shotCount d i e) as Ht; rewrite Ea in Ht; cbn [fst snd] in Ht; lia.
  - unfold addPenalty, setWith; cbn [shotCount]; lia.
Qed.

(** ** Positions *)

Lemma getCurrentPlayer_nth m k cp :
  getCurrentPlayer m = Some (k, cp) -> nth_error (players m) k = Some cp.
Proof.
  unfold getCurrentPlayer; destruct (currentPlayerIndex m) as [z|]; [|discriminate].
  destruct (z <? 0); [discriminate|].
  destruct (nth_error (players m) (Z.to_nat z)) eqn:E; [|discriminate].
  intros H; inversion H; subst; exact E.
Qed.

Lemma nth_updateAt_same {A} k (g : A -> A) l :
  nth_error (updateAt k g l) k = option_map g (nth_error l k).
Proof. revert k; induction l as [|x t IH]; intros [|k]; simpl; auto. Qed.

Lemma nth_updateAt_other {A} j k (g : A -> A) l :
  j <> k -> nth_error (updateAt k g l) j = nth_error l j.
Proof.
  revert j k; induction l as [|x t IH]; intros [|j] [|k] Hjk; simpl;
    try reflexivity; try lia; apply IH; lia.
Qed.

Lemma nth_mapOthers_other {A} j k (h : A -> A) l :
  j <> k -> nth_error (mapOthers k h l) j = option_map h (nth_error l j).
Proof.
  revert j k; induction l as [|x t IH]; intros [|j] [|k] Hjk; simpl;
    try reflexivity; try lia; first [apply nth_error_map | apply IH; lia].
Qed.

Lemma setIndex_nth l i v : nth_error (Score.setIndex l i v) i = Some (Some v).
Proof.
  revert i; induction l as [|x t IH]; intros [|i]; simpl; auto.
  induction i as [|i IHi]; simpl; auto.
Qed.

Lemma spt_others_off m k cp j q :
  getCurrentPlayer m = Some (k, cp) -> j <> k ->
  nth_error (players (startPlayerTurn m)) j = Some q -> isPlayerTurn (golfEntity q) = false.
Proof.
  intros Hc Hjk; unfold startPlayerTurn; rewrite Hc; cbn [setPlayers players].
  unfold updateEntity; rewrite nth_updateAt_other by exact Hjk.
  destruct (golfBall m); [rewrite nth_updateAt_other by exact Hjk|];
    rewrite nth_mapOthers_other by exact Hjk;
    destruct (nth_error (players m) j); simpl; intros H; inversion H; subst; reflexivity.
Qed.

Lemma endGame_current_off m k cp :
  gameInProgress m = true -> getCurrentPlayer m = Some (k, cp) ->
  exists q, nth_error (players (stateOf (endGame m))) k = Some q
            /\ isPlayerTurn (golfEntity q) = false.
Proof.
  intros Hg Hc; unfold endGame; rewrite Hg; cbn [negb].
  assert (Hc1 : getCurrentPlayer (mkManager (players m) (currentPlayerIndex m) (currentHole m)
                   false (holes m) (golfBall m)) = Some (k, cp)) by exact Hc.
  rewrite Hc1.
  set (m2 := setPlayers _ _).
  assert (H2 : exists q, nth_error (players m2) k = Some q /\ isPlayerTurn (golfEntity q) = false).
  { subst m2; cbn [setPlayers players]; unfold updateEntity; rewrite nth_updateAt_same.
    rewrite (getCurrentPlayer_nth m k cp Hc); cbn [option_map].
    eexists; split; reflexivity. }
  destruct (calculateFinalScores m2); exact H2.
Qed.

Lemma inHole_records m k cp :
  gameInProgress m = true -> getCurrentPlayer m = Some (k, cp) ->
  snd (handleBallInHole m) = true
  /\ exists q, nth_error (players (fst (handleBallInHole m))) k = Some q
        /\ nth_error (strokes q) (Z.to_nat (currentHole m)) = Some (Some (shotCount (golfEntity cp)))
        /\ totalStrokes q = totalStrokes cp + shotCount (golfEntity cp).
Proof.
  intros Hg Hc; unfold handleBallInHole; rewrite Hg, Hc; cbn [negb fst snd].
  split; [reflexivity|]; cbn [setPlayers players].
  rewrite nth_updateAt_same, (getCurrentPlayer_nth m k cp Hc); cbn [option_map].
  eexists; split; [reflexivity|]; cbn [strokes totalStrokes].
  split; [apply setIndex_nth | reflexivity].
Qed.

End ManagerFacts.

(* ================================================================= *)
(** * The claims on the game manager *)

Module ManagerClaims.
Import Player Score Manager Scenarios ManagerFacts.

(** Builds an [mreachable] derivation for a concrete run of the server. *)
Ltac reach :=
  repeat first
    [ apply mr_init
    | eapply mr_step; [| apply ms_inHole]
    | eapply mr_step; [| apply ms_tick]
    | eapply mr_step; [| apply ms_next]
    | eapply mr_step; [| apply ms_holeTimer]
    | eapply mr_step; [| apply ms_startGame]
    | eapply mr_step; [| apply ms_add] ].

(** C2 (turn order): with [n > 0] registered players and a current index
    [i >= 0], a turn advance with the ball at rest sets the index to
    [(i + 1) mod n] and keeps the roster; and [n] consecutive advances make
    each registered player the current player exactly once. *)
Theorem turn_order_round_robin (m : GameManager) (i : Z)
  (Hi : currentPlayerIndex m = Num i) (H0 : 0 <= i)
  (Hn : (0 < List.length (players m))%nat) :
  currentPlayerIndex (nextPlayerTurn false m)
    = Num ((i + 1) mod Z.of_nat (List.length (players m)))
  /\ map id (players (nextPlayerTurn false m)) = map id (players m)
  /\ Permutation (map currentPlayerId (turnAdvances (List.length (players m)) m))
                 (map (fun p => Some (id p)) (players m)).
Proof.
  split; [apply next_index; assumption|].
  split; [apply next_ids|].
  rewrite (turnAdvances_ids _ m i Hi H0 Hn).
  rewrite <- (map_map id Some), <- (map_nth_error_seq (map id (players m))), length_map.
  rewrite <- (map_map (fun j => Z.to_nat ((i + 1 + Z.of_nat j) mod Z.of_nat (List.length (players m))))
                      (nth_error (map id (players m)))).
  apply Permutation_map, rotation_perm, Hn.
Qed.

(** C9 (single active turn): in every state the server can reach, at most
    one registered player entity has an active turn; starting a turn ends
    the turn of every other registered player; and ending a game in
    progress ends the current player's turn. *)
Theorem single_active_turn (m : GameManager) (Hr : mreachable m) :
  (activeTurns m <= 1)%nat
  /\ (forall k cp j q, getCurrentPlayer m = Some (k, cp) -> j <> k ->
        nth_error (players (startPlayerTurn m)) j = Some q ->
        isPlayerTurn (golfEntity q) = false)
  /\ (forall k cp, gameInProgress m = true -> getCurrentPlayer m = Some (k, cp) ->
        exists q, nth_error (players (stateOf (endGame m))) k = Some q
                  /\ isPlayerTurn (golfEntity q) = false).
Proof.
  split; [apply reachable_le1; exact Hr|].
  split.
  - intros k cp j q Hc Hjk; apply (spt_others_off m k cp j q Hc Hjk).
  - intros k cp Hg Hc; apply (endGame_current_off m k cp Hg Hc).
Qed.

(** C10 (shot count since the turn start): [startTurn] sets the shot count
    to 0; after any run of an entity that contains a turn start, its shot
    count is the number of strokes (ball hits and water penalties) since the
    last turn start; the ball-in-hole handler records exactly that count for
    the current hole.  In the two-player run [twoTurns], "a" hits the ball
    twice on hole 1 (once in each of its turns) and 1 is recorded. *)
Theorem shot_count_since_turn_start :
  (forall e, shotCount (startTurn e) = 0)
  /\ (forall evs e s, afterLastStart (snd (runLog evs e)) = Some s ->
        shotCount (fst (runLog evs e)) = strokesIn s)
  /\ (forall m k cp, gameInProgress m = true -> getCurrentPlayer m = Some (k, cp) ->
        exists q, nth_error (players (fst (handleBallInHole m))) k = Some q
          /\ nth_error (strokes q) (Z.to_nat (currentHole m)) = Some (Some (shotCount (golfEntity cp))))
  /\ map strokes (players twoTurns) = [[Some 1]; []].
Proof.
  split; [exact startTurn_shotCount|].
  split; [intros evs e s Hs; rewrite runLog_shotCount, Hs; reflexivity|].
  split; [|vm_compute; reflexivity].
  intros m k cp Hg Hc; destruct (inHole_records m k cp Hg Hc) as [_ [q [Hq [Hs _]]]].
  exists q; split; assumption.
Qed.

(** C1 (hole progression), at the last hole: one player, "a", plays the
    three holes of the default course; the strokes of each hole are
    recorded, but when the 3 s timer after the last hole fires,
    [_startHole(3)] calls the undefined [this._endGame] and throws: the game
    stays in progress instead of ending. *)
Theorem last_hole_does_not_end_game :
  mreachable lastHoleSunk
  /\ map strokes (players lastHoleSunk) = [[Some 1; Some 1; Some 1]]
  /\ currentHole lastHoleSunk + 1 = Z.of_nat (List.length (holes lastHoleSunk))
  /\ holeTimer lastHoleSunk = Throw lastHoleSunk endGameMissing
  /\ gameInProgress (stateOf (holeTimer lastHoleSunk)) = true.
Proof.
  split; [unfold lastHoleSunk, holeOut, soloStart, shoot; reach|].
  vm_compute; repeat split; reflexivity.
Qed.

(** C4 (scoring), on a hole recorded twice: "a" sinks the ball on hole 1,
    the [golf-shot] timer restarts the turn, "a" shoots again and the ball
    enters the hole again before the next hole starts.  The handler
    overwrites [strokes[0]] but adds to [totalStrokes]: the total (2) is no
    longer the sum of the per-hole strokes (1). *)
Theorem hole_recorded_twice_breaks_total :
  mreachable holeRecordedTwice
  /\ map (fun p => (strokes p, totalStrokes p)) (players holeRecordedTwice) = [([Some 1], 2)]
  /\ sumStrokes [Some 1] = 1.
Proof.
  split; [unfold holeRecordedTwice, soloStart, shoot; cbv zeta; reach|].
  vm_compute; split; reflexivity.
Qed.

End ManagerClaims.

(* ================================================================= *)
(** * The claims at concrete inputs *)

Module Witnesses.
Import Player Score Manager Scenarios.

Lemma chargingEntity_reachable : reachable 100 chargingEntity.
Proof.
  unfold chargingEntity.
  eapply reach_step; [|apply st_tick].
  eapply reach_step; [|apply st_startTurn].
  eapply reach_step; [|apply st_setGolfBall].
  apply reach_new.
Qed.

Lemma power_charge_invariant_witness :
  currentPower (fst (tick facing press chargingEntity))
    = Qmin (currentPower chargingEntity + 100 / (60 * 2)) 100
  /\ currentPower (fst (tick facing release chargingEntity)) = 0%Q.
Proof.
  destruct (PlayerClaims.power_charge_invariant 100 chargingEntity facing press
              ltac:(vm_compute; discriminate) chargingEntity_reachable) as [_ [Hc _]].
  destruct (PlayerClaims.power_charge_invariant 100 chargingEntity facing release
              ltac:(vm_compute; discriminate) chargingEntity_reachable) as [_ [_ [_ [_ Hr]]]].
  split; [apply Hc; reflexivity | apply Hr; reflexivity].
Defined.

Lemma shot_execution_witness :
  hits (snd (tick facing release chargingEntity))
    = [Hit facing ((currentPower chargingEntity / maxPower chargingEntity) * 50)]
  /\ shotCount (fst (tick facing release chargingEntity)) = 1.
Proof.
  destruct (PlayerClaims.shot_execution 100 chargingEntity facing release
              ltac:(reflexivity) chargingEntity_reachable) as [Hs _].
  destruct (Hs eq_refl eq_refl eq_refl eq_refl eq_refl) as [Hh [Hn _]].
  split; [exact Hh | rewrite Hn; reflexivity].
Defined.

Lemma trioStart_reachable : mreachable trioStart.
Proof. unfold trioStart; ManagerClaims.reach. Qed.

Lemma turn_order_round_robin_witness :
  Permutation (map currentPlayerId (turnAdvances 3 trioStart))
              [Some "a"%string; Some "b"%string; Some "c"%string].
Proof.
  destruct (ManagerClaims.turn_order_round_robin trioStart 0
              ltac:(reflexivity) ltac:(lia) ltac:(vm_compute; lia)) as [_ [_ Hp]].
  exact Hp.
Defined.

Lemma single_active_turn_witness : (activeTurns trioStart <= 1)%nat.
Proof.
  exact (proj1 (ManagerClaims.single_active_turn trioStart trioStart_reachable)).
Defined.

Lemma shot_count_since_turn_start_witness :
  shotCount (fst (runLog [EvSetBall; EvStartTurn; EvTick facing press; EvTick facing release;
                          EvPenalty] (newEntity 100 true))) = 2.
Proof.
  destruct ManagerClaims.shot_count_since_turn_start as [_ [Hrun _]].
  erewrite Hrun; [| vm_compute; reflexivity]; vm_compute; reflexivity.
Defined.

End Witnesses.

(* ================================================================= *)
(** * More on the course stamps: the lattice they leave *)

Module CourseExtras.
Import Course CourseFacts.

Lemma v3_eqb_true p q : v3_eqb p q = true <-> p = q.
Proof.
  destruct p as [a b c], q as [a' b' c']; unfold v3_eqb; simpl.
  rewrite !andb_true_iff, !Z.eqb_eq; split.
  - intros [[-> ->] ->]; reflexivity.
  - intros H; inversion H; auto.
Qed.

Lemma applyWrites_app w ws1 ws2 :
  applyWrites w (ws1 ++ ws2) = applyWrites (applyWrites w ws1) ws2.
Proof. unfold applyWrites; apply fold_left_app. Qed.

(** Writes that all carry block [c]: a position reads [c] when some write
    targets it, and keeps its old block otherwise. *)
Lemma applyWrites_uniform w ws c q :
  (forall p b, In (p, b) ws -> b = c) ->
  applyWrites w ws q = if existsb (fun '(p, _) => v3_eqb q p) ws then Some c else w q.
Proof.
  revert w; induction ws as [|[p b] t IH]; intros w Hc; [reflexivity|].
  unfold applyWrites; cbn [fold_left existsb]; fold (applyWrites
    (fun q0 => if v3_eqb q0 p then Some b else w q0) t).
  rewrite IH by (intros; eapply Hc; right; eassumption).
  rewrite (Hc p b (or_introl eq_refl)).
  destruct (existsb _ t); destruct (v3_eqb q p); reflexivity.
Qed.

Lemma existsb_target q (ws : list SetBlock) :
  existsb (fun '(p, _) => v3_eqb q p) ws = true <-> exists b, In (q, b) ws.
Proof.
  rewrite existsb_exists; split.
  - intros [[p b] [Hin Hq]]; apply v3_eqb_true in Hq; subst; eauto.
  - intros [b Hin]; exists (q, b); split; [exact Hin|]; apply v3_eqb_true; reflexivity.
Qed.

Lemma length_zrange lo hi : List.length (zrange lo hi) = Z.to_nat (hi - lo + 1).
Proof. unfold zrange; rewrite length_map, length_seq; reflexivity. Qed.

Lemma length_flat_map_const {A B} (f : A -> list B) k l :
  (forall x, List.length (f x) = k) -> List.length (flat_map f l) = (List.length l * k)%nat.
Proof.
  intros Hf; induction l as [|x t IH]; [reflexivity|].
  cbn [flat_map]; rewrite length_app, Hf, IH; simpl; lia.
Qed.

Lemma NoDup_flat_map_disj {A B} (f : A -> list B) l :
  NoDup l -> (forall x, NoDup (f x)) ->
  (forall x y b, x <> y -> In b (f x) -> In b (f y) -> False) ->
  NoDup (flat_map f l).
Proof.
  intros Hl Hf Hd; induction Hl as [|x t Hx Ht IH]; [constructor|].
  cbn [flat_map]; apply NoDup_app; [apply Hf|exact IH|].
  intros b Hb Hb'; apply in_flat_map in Hb'; destruct Hb' as [y [Hy Hby]].
  apply (Hd x y b); [intros ->; contradiction|exact Hb|exact Hby].
Qed.

Lemma zrange_NoDup lo hi : NoDup (zrange lo hi).
Proof.
  unfold zrange; apply NoDup_map_NoDup_ForallPairs; [|apply seq_NoDup].
  intros a b _ _ H; lia.
Qed.

Lemma map_flat_map' {A B C} (f : B -> C) (g : A -> list B) l :
  map f (flat_map g l) = flat_map (fun x => map f (g x)) l.
Proof. induction l as [|x t IH]; [reflexivity|]; cbn [flat_map]; rewrite map_app, IH; reflexivity. Qed.

Lemma NoDup_flat_map_key {A B} (f : A -> list B) (key : B -> A) l :
  NoDup l -> (forall x, NoDup (f x)) -> (forall x b, In b (f x) -> key b = x) ->
  NoDup (flat_map f l).
Proof.
  intros Hl Hf Hk; apply NoDup_flat_map_disj; [exact Hl|exact Hf|].
  intros x y b Hxy H1 H2; apply Hxy; rewrite <- (Hk x b H1); exact (Hk y b H2).
Qed.

(** The leaves of [buildSimpleTree]: the two rings at heights [y+3] and
    [y+4]. *)
Lemma in_tree_leaves (position p : V3 Z) b :
  In (p, b) (flat_map (fun dx =>
       flat_map (fun dz =>
         if (dx =? 0) && (dz =? 0) then []
         else [(mkV3 (vx position + dx) (vy position + 3) (vz position + dz), 100);
               (mkV3 (vx position + dx) (vy position + 4) (vz position + dz), 100)])
       (zrange (-1) 1))
     (zrange (-1) 1))
  <-> b = 100
      /\ (vy p = vy position + 3 \/ vy p = vy position + 4)
      /\ vx position - 1 <= vx p <= vx position + 1
      /\ vz position - 1 <= vz p <= vz position + 1
      /\ (vx p <> vx position \/ vz p <> vz position).
Proof.
  rewrite in_flat_map; split.
  - intros [dx [Hdx Hin]]; rewrite in_flat_map in Hin; destruct Hin as [dz [Hdz Hin]].
    apply in_zrange in Hdx, Hdz.
    destruct ((dx =? 0) && (dz =? 0)) eqn:E; [destruct Hin|].
    apply andb_false_iff in E; rewrite !Z.eqb_neq in E.
    destruct Hin as [Heq|[Heq|[]]]; inversion Heq; subst; simpl; repeat split; lia.
  - intros [-> [Hy [Hx [Hz Hne]]]].
    exists (vx p - vx position); split; [apply in_zrange; lia|].
    rewrite in_flat_map; exists (vz p - vz position); split; [apply in_zrange; lia|].
    replace ((vx p - vx position =? 0) && (vz p - vz position =? 0)) with false
      by (symmetry; apply andb_false_iff; rewrite !Z.eqb_neq; lia).
    destruct p as [px py pz]; simpl in *.
    replace (vx position + (px - vx position)) with px by lia.
    replace (vz position + (pz - vz position)) with pz by lia.
    destruct Hy as [-> | ->]; [left|right; left]; reflexivity.
Qed.

End CourseExtras.

Module CourseExtraClaims.
Import Course CourseFacts CourseExtras.

(** Stamping a rectangle onto the lattice: afterwards every point of the
    min/max box holds [blockId], and every other point keeps the block it
    had before. *)
Theorem buildRectangle_world w c1 c2 blockId q :
  applyWrites w (buildRectangle c1 c2 blockId) q =
  if (Z.min (vx c1) (vx c2) <=? vx q) && (vx q <=? Z.max (vx c1) (vx c2))
     && (Z.min (vy c1) (vy c2) <=? vy q) && (vy q <=? Z.max (vy c1) (vy c2))
     && (Z.min (vz c1) (vz c2) <=? vz q) && (vz q <=? Z.max (vz c1) (vz c2))
  then Some blockId else w q.
Proof.
  rewrite (applyWrites_uniform _ _ blockId)
    by (intros p b Hin; apply in_buildRectangle in Hin; tauto).
  destruct (existsb _ _) eqn:E; symmetry.
  - apply existsb_target in E; destruct E as [b Hin]; apply in_buildRectangle in Hin.
    replace (_ && _) with true; [reflexivity|].
    symmetry; rewrite !andb_true_iff, !Z.leb_le; lia.
  - destruct (_ && _) eqn:F; [|reflexivity].
    exfalso; rewrite !andb_true_iff, !Z.leb_le in F.
    assert (Hin : exists b, In (q, b) (buildRectangle c1 c2 blockId))
      by (exists blockId; apply in_buildRectangle; lia).
    apply existsb_target in Hin; congruence.
Qed.

(** [buildRectangle] makes exactly [(|dx|+1)(|dy|+1)(|dz|+1)] [setBlock]
    calls, and no position is set twice. *)
Theorem buildRectangle_count_distinct c1 c2 blockId :
  Z.of_nat (List.length (buildRectangle c1 c2 blockId))
    = (Z.abs (vx c1 - vx c2) + 1) * (Z.abs (vy c1 - vy c2) + 1) * (Z.abs (vz c1 - vz c2) + 1)
  /\ NoDup (map fst (buildRectangle c1 c2 blockId)).
Proof.
  unfold buildRectangle; split.
  - rewrite (length_flat_map_const _
      (List.length (zrange (Z.min (vy c1) (vy c2)) (Z.max (vy c1) (vy c2)))
       * List.length (zrange (Z.min (vz c1) (vz c2)) (Z.max (vz c1) (vz c2))))).
    + rewrite !length_zrange, !Nat2Z.inj_mul, !Z2Nat.id by lia.
      replace (Z.max (vx c1) (vx c2) - Z.min (vx c1) (vx c2) + 1) with (Z.abs (vx c1 - vx c2) + 1) by lia.
      replace (Z.max (vy c1) (vy c2) - Z.min (vy c1) (vy c2) + 1) with (Z.abs (vy c1 - vy c2) + 1) by lia.
      replace (Z.max (vz c1) (vz c2) - Z.min (vz c1) (vz c2) + 1) with (Z.abs (vz c1 - vz c2) + 1) by lia.
      ring.
    + intros x; apply length_flat_map_const; intros y; apply length_map.
  - rewrite map_flat_map'; apply (NoDup_flat_map_key _ vx); [apply zrange_NoDup| |].
    + intros x; rewrite map_flat_map'; apply (NoDup_flat_map_key _ vy); [apply zrange_NoDup| |].
      * intros y; rewrite map_map; apply NoDup_map_NoDup_ForallPairs; [|apply zrange_NoDup].
        intros a a' _ _ H; simpl in H; congruence.
      * intros y b Hb; rewrite map_map, in_map_iff in Hb; destruct Hb as [z [<- _]]; reflexivity.
    + intros x b Hb; rewrite in_map_iff in Hb; destruct Hb as [[p c] [<- Hin]].
      rewrite in_flat_map in Hin; destruct Hin as [y [_ Hin]].
      rewrite in_map_iff in Hin; destruct Hin as [z [E _]]; inversion E; reflexivity.
Qed.

(** [buildCircle] never sets a position twice, and with a negative radius
    its loops are empty: no block is set at all. *)
Theorem buildCircle_distinct_empty center radius blockId :
  NoDup (map fst (buildCircle center radius blockId))
  /\ (radius < 0 -> buildCircle center radius blockId = []).
Proof.
  split.
  - unfold buildCircle; rewrite map_flat_map'; apply (NoDup_flat_map_key _ vx); [apply zrange_NoDup| |].
    + intros x; rewrite map_flat_map'; apply (NoDup_flat_map_key _ vz); [apply zrange_NoDup| |].
      * intros z; destruct (withinRadius _ _ _ _); repeat constructor; simpl; tauto.
      * intros z b Hb; destruct (withinRadius _ _ _ _); simpl in Hb;
          [destruct Hb as [<-|[]]; reflexivity | destruct Hb].
    + intros x b Hb; rewrite in_map_iff in Hb; destruct Hb as [[p c] [<- Hin]].
      rewrite in_flat_map in Hin; destruct Hin as [z [_ Hin]].
      destruct (withinRadius _ _ _ _); [destruct Hin as [E|[]]; inversion E; reflexivity|destruct Hin].
  - intros Hr; unfold buildCircle, zrange.
    replace (Z.to_nat (vx center + radius - (vx center - radius) + 1)) with 0%nat by lia.
    reflexivity.
Qed.

(** [buildSimpleTree(world, position)] leaves block 100 on the two leaf
    rings around [(x, y+3, z)] and [(x, y+4, z)] (centres excluded), block 1
    on the trunk [(x, y+1..y+3, z)], and every other position as it was; in
    particular [(x, y+4, z)] is never touched. *)
Theorem buildSimpleTree_world w position q :
  let leaf := (vy q = vy position + 3 \/ vy q = vy position + 4)
              /\ vx position - 1 <= vx q <= vx position + 1
              /\ vz position - 1 <= vz q <= vz position + 1
              /\ (vx q <> vx position \/ vz q <> vz position) in
  let trunk := vx q = vx position /\ vz q = vz position
               /\ vy position + 1 <= vy q <= vy position + 3 in
  (leaf -> applyWrites w (buildSimpleTree position) q = Some 100)
  /\ (trunk -> applyWrites w (buildSimpleTree position) q = Some 1)
  /\ (~ leaf -> ~ trunk -> applyWrites w (buildSimpleTree position) q = w q).
Proof.
  intros leaf trunk; unfold buildSimpleTree; rewrite applyWrites_app.
  rewrite (applyWrites_uniform _ _ 100)
    by (intros p b Hin; apply in_tree_leaves in Hin; tauto).
  rewrite (applyWrites_uniform w _ 1)
    by (intros p b Hin; simpl in Hin; destruct Hin as [E|[E|[E|[]]]]; inversion E; reflexivity).
  assert (HL : existsb (fun '(p, _) => v3_eqb q p) (flat_map (fun dx =>
       flat_map (fun dz =>
         if (dx =? 0) && (dz =? 0) then []
         else [(mkV3 (vx position + dx) (vy position + 3) (vz position + dz), 100);
               (mkV3 (vx position + dx) (vy position + 4) (vz position + dz), 100)])
       (zrange (-1) 1))
     (zrange (-1) 1)) = true <-> leaf).
  { rewrite existsb_target; split.
    - intros [b Hin]; apply in_tree_leaves in Hin; unfold leaf; tauto.
    - intros H; exists 100; apply in_tree_leaves; unfold leaf in H; tauto. }
  assert (HT : existsb (fun '(p, _) => v3_eqb q p)
     [(mkV3 (vx position) (vy position + 1) (vz position), 1);
      (mkV3 (vx position) (vy position + 2) (vz position), 1);
      (mkV3 (vx position) (vy position + 3) (vz position), 1)] = true <-> trunk).
  { rewrite existsb_target; unfold trunk; split.
    - intros [b Hin]; simpl in Hin; destruct Hin as [E|[E|[E|[]]]]; inversion E; subst; simpl; lia.
    - intros [Hx [Hz Hy]]; exists 1; destruct q as [qx qy qz]; simpl in *; subst.
      assert (qy = vy position + 1 \/ qy = vy position + 2 \/ qy = vy position + 3) as [->|[->| ->]]
        by lia; simpl; tauto. }
  split; [|split].
  - intros Hl; apply HL in Hl; rewrite Hl; reflexivity.
  - intros Ht.
    destruct (existsb _ (flat_map _ _)) eqn:E1.
    + exfalso; pose proof (proj1 HL eq_refl) as Hl; unfold leaf, trunk in *; lia.
    + apply HT in Ht; rewrite Ht; reflexivity.
  - intros Hl Ht.
    destruct (existsb _ (flat_map _ _)) eqn:E1; [exact (False_ind _ (Hl (proj1 HL eq_refl)))|].
    destruct (existsb _ [_; _; _]) eqn:E2; [exact (False_ind _ (Ht (proj1 HT eq_refl)))|reflexivity].
Qed.

End CourseExtraClaims.

(* ================================================================= *)
(** * More on the player entity: charging, the ball and the turn *)

Module PlayerExtras.
Import Player Scenarios.

Local Open Scope Q_scope.



Lemma Qmin_step a inc mp :
  0 <= inc -> Qmin (Qmin a mp + inc) mp == Qmin (a + inc) mp.
Proof.
  intros Hi.
  destruct (Q.min_spec a mp) as [[H1 H2]|[H1 H2]];
  destruct (Q.min_spec (Qmin a mp + inc) mp) as [[H3 H4]|[H3 H4]];
  destruct (Q.min_spec (a + inc) mp) as [[H5 H6]|[H5 H6]]; lra.
Qed.


Lemma noBall_event ev e :
  ev <> EvSetBall -> hasBall e = false -> isAiming e = false -> isCharging e = false ->
  hasBall (fst (applyEvent ev e)) = false /\ isAiming (fst (applyEvent ev e)) = false
  /\ isCharging (fst (applyEvent ev e)) = false /\ snd (applyEvent ev e) = [].
Proof.
  destruct e as [mx p c a b n t w]; simpl; intros Hev -> -> ->.
  destruct ev; [congruence| | | |].
  - unfold startTurn, startAiming; simpl; auto.
  - unfold endTurn; simpl; auto.
  - cbn [applyEvent]; unfold tick; destruct t; simpl; [|auto].
    unfold toggleAiming, startAiming, stopAiming;
      destruct (sp i), (f i), (r i); simpl; auto.
  - unfold addPenalty; simpl; auto.
Qed.

Lemma offTurn_event ev e :
  ev <> EvStartTurn -> isPlayerTurn e = false -> isCharging e = false ->
  currentPower e = 0 -> isAiming e = false ->
  isPlayerTurn (fst (applyEvent ev e)) = false /\ isCharging (fst (applyEvent ev e)) = false
  /\ currentPower (fst (applyEvent ev e)) = 0 /\ isAiming (fst (applyEvent ev e)) = false
  /\ snd (applyEvent ev e) = [].
Proof.
  destruct e as [mx p c a b n t w]; simpl; intros Hev -> -> -> ->.
  destruct ev; [| congruence | | |].
  - unfold setGolfBall; simpl; auto.
  - unfold endTurn; simpl; auto.
  - cbn [applyEvent]; unfold tick; simpl; auto.
  - unfold addPenalty; simpl; auto.
Qed.

End PlayerExtras.

Module PlayerExtraClaims.
Import Player Scenarios PlayerExtras.

Local Open Scope Q_scope.


(** Without a ball the entity is inert: from a state with no ball, not
    aiming and not charging, any run without [setGolfBall] never aims,
    never charges, and never hits or resets a ball. *)
Theorem no_ball_no_shot evs e
  (Hb : hasBall e = false) (Ha : isAiming e = false) (Hc : isCharging e = false)
  (Hs : ~ In EvSetBall evs) :
  let r := runLog evs e in
  hasBall (fst r) = false /\ isAiming (fst r) = false /\ isCharging (fst r) = false
  /\ flat_map snd (snd r) = [].
Proof.
  intros r; subst r; revert e Hb Ha Hc; induction evs as [|ev t IH]; intros e Hb Ha Hc.
  - simpl; auto.
  - cbn [runLog]; destruct (noBall_event ev e) as [Hb1 [Ha1 [Hc1 Hfx]]];
      [intros ->; apply Hs; left; reflexivity|assumption..|].
    destruct (applyEvent ev e) as [e1 fx] eqn:E; cbn [fst snd] in *.
    destruct (IH ltac:(intros H; apply Hs; right; exact H) e1 Hb1 Ha1 Hc1) as [? [? [? Hfx']]].
    destruct (runLog t e1) as [e2 log]; cbn [fst snd flat_map] in *; subst fx.
    repeat split; assumption.
Qed.

(** [toggleAiming] (key F): with a ball assigned, toggling twice gives back
    the same entity; without one, toggling never leaves the entity aiming. *)
Theorem toggleAiming_round_trip e :
  (hasBall e = true -> toggleAiming (toggleAiming e) = e)
  /\ (hasBall e = false -> isAiming (toggleAiming e) = false).
Proof.
  destruct e as [mx p c a b n t w]; simpl; split; intros ->;
    unfold toggleAiming, startAiming, stopAiming, setWith; destruct a; reflexivity.
Qed.

(** After [endTurn], until the next [startTurn], input is ignored: a charge
    that was in progress is dropped without a shot, and no run of ball
    assignments, input ticks and penalties starts charging, aiming or the
    turn again, or hits or resets the ball. *)
Theorem endTurn_then_inert evs e (Hs : ~ In EvStartTurn evs) :
  let r := runLog evs (endTurn e) in
  isPlayerTurn (fst r) = false /\ isCharging (fst r) = false
  /\ currentPower (fst r) = 0 /\ isAiming (fst r) = false
  /\ flat_map snd (snd r) = [].
Proof.
  intros r; subst r.
  assert (H : forall e0, isPlayerTurn e0 = false -> isCharging e0 = false ->
            currentPower e0 = 0 -> isAiming e0 = false ->
            let r := runLog evs e0 in
            isPlayerTurn (fst r) = false /\ isCharging (fst r) = false
            /\ currentPower (fst r) = 0 /\ isAiming (fst r) = false
            /\ flat_map snd (snd r) = []).
  { clear e; induction evs as [|ev t IH]; intros e Ht Hc Hp Ha r; subst r.
    - simpl; auto.
    - cbn [runLog]; destruct (offTurn_event ev e) as [Ht1 [Hc1 [Hp1 [Ha1 Hfx]]]];
        [intros ->; apply Hs; left; reflexivity|assumption..|].
      destruct (applyEvent ev e) as [e1 fx] eqn:E; cbn [fst snd] in *.
      destruct (IH ltac:(intros H; apply Hs; right; exact H) e1 Ht1 Hc1 Hp1 Ha1)
        as [? [? [? [? Hfx']]]].
      destruct (runLog t e1) as [e2 log]; cbn [fst snd flat_map] in *; subst fx.
      repeat split; assumption. }
  apply H; reflexivity.
Qed.

End PlayerExtraClaims.

(* ================================================================= *)
(** * More on the game manager: roster, game start and end, rankings *)

Module ManagerExtras.
Import Player Score Manager ManagerFacts.

(** ** Maps that only touch entities *)

Lemma map_mapOthers_inv {A B} (f : A -> B) k h l :
  (forall x, f (h x) = f x) -> map f (mapOthers k h l) = map f l.
Proof.
  intros Hh; revert k; induction l as [|x t IH]; intros [|k]; cbn [mapOthers map]; try reflexivity.
  - f_equal; rewrite map_map; apply map_ext; exact Hh.
  - rewrite Hh, IH; reflexivity.
Qed.

Lemma map_updateAt_inv {A B} (f : A -> B) k g l :
  (forall x, f (g x) = f x) -> map f (updateAt k g l) = map f l.
Proof.
  intros Hg; revert k; induction l as [|x t IH]; intros [|k]; cbn [updateAt map];
    [reflexivity|reflexivity|rewrite Hg; reflexivity|rewrite IH; reflexivity].
Qed.

Lemma map_updateEntity_inv {B} (f : PlayerScore -> B) k g l :
  (forall p e, f (withEntity p e) = f p) -> map f (updateEntity k g l) = map f l.
Proof. intros Hf; apply map_updateAt_inv; intros; apply Hf. Qed.

Lemma spt_map_inv {B} (f : PlayerScore -> B) m :
  (forall p e, f (withEntity p e) = f p) ->
  map f (players (startPlayerTurn m)) = map f (players m).
Proof.
  intros Hf; unfold startPlayerTurn; destruct (getCurrentPlayer m) as [[k cp]|]; [|reflexivity].
  cbn [setPlayers players]; rewrite map_updateEntity_inv by exact Hf.
  destruct (golfBall m); [rewrite map_updateEntity_inv by exact Hf|];
    apply map_mapOthers_inv; intros; apply Hf.
Qed.

Lemma spt_fields m :
  currentPlayerIndex (startPlayerTurn m) = currentPlayerIndex m
  /\ currentHole (startPlayerTurn m) = currentHole m
  /\ gameInProgress (startPlayerTurn m) = gameInProgress m
  /\ holes (startPlayerTurn m) = holes m
  /\ golfBall (startPlayerTurn m) = golfBall m.
Proof. unfold startPlayerTurn; destruct (getCurrentPlayer m) as [[k cp]|]; repeat split. Qed.

Lemma length_updateAt {A} k (g : A -> A) l : List.length (updateAt k g l) = List.length l.
Proof.
  rewrite <- (length_map (fun _ => tt) (updateAt k g l)), map_updateAt_inv by reflexivity.
  apply length_map.
Qed.

(** ** Roster *)

Lemma removePlayer_eq pid mv m :
  removePlayer pid mv m = setPlayers m (filter (fun p => negb (String.eqb (id p) pid)) (players m)).
Proof.
  unfold removePlayer.
  destruct (getCurrentPlayer (setPlayers m (filter (fun p => negb (String.eqb (id p) pid)) (players m))))
    as [[k cp]|] eqn:E.
  - apply getCurrentPlayer_nth, nth_error_In in E.
    cbn [setPlayers players] in E; apply filter_In in E; destruct E as [_ E].
    destruct (String.eqb (id cp) pid); [discriminate|].
    rewrite andb_false_r; reflexivity.
  - rewrite andb_false_r; reflexivity.
Qed.

Lemma NoDup_ids_filter f l : NoDup (map id l) -> NoDup (map id (filter f l)).
Proof.
  induction l as [|x t IH]; intros H; [constructor|].
  inversion H as [|? ? Hx Ht]; subst; cbn [filter].
  destruct (f x); [|apply IH; exact Ht].
  cbn [map]; constructor; [|apply IH; exact Ht].
  intros Hin; apply Hx; apply in_map_iff in Hin; destruct Hin as [q [Hq Hin]].
  apply filter_In in Hin; apply in_map_iff; exists q; split; [exact Hq|tauto].
Qed.

Lemma addPlayer_fields pid e m :
  currentPlayerIndex (addPlayer pid e m) = currentPlayerIndex m
  /\ currentHole (addPlayer pid e m) = currentHole m
  /\ gameInProgress (addPlayer pid e m) = gameInProgress m
  /\ holes (addPlayer pid e m) = holes m.
Proof. unfold addPlayer; destruct (existsb _ _); repeat split. Qed.

Lemma addPlayer_ids pid e m :
  map id (players (addPlayer pid e m)) =
  if existsb (fun p => String.eqb (id p) pid) (players m) then map id (players m)
  else map id (players m) ++ [pid].
Proof.
  unfold addPlayer; destruct (existsb _ _); cbn [setPlayers players].
  - rewrite map_map; apply map_ext; intros p.
    destruct (String.eqb_spec (id p) pid) as [<-|_]; reflexivity.
  - rewrite map_app; reflexivity.
Qed.

Lemma addPlayer_nodup pid e m :
  NoDup (map id (players m)) -> NoDup (map id (players (addPlayer pid e m))).
Proof.
  intros H; rewrite addPlayer_ids; destruct (existsb _ _) eqn:E; [exact H|].
  apply NoDup_app; [exact H|repeat constructor; simpl; tauto|].
  intros a Ha [<-|[]]; apply in_map_iff in Ha; destruct Ha as [q [Hq Hin]].
  assert (Ht : existsb (fun p => String.eqb (id p) (id q)) (players m) = true)
    by (apply existsb_exists; exists q; split; [exact Hin|apply String.eqb_refl]).
  rewrite Hq in Ht; congruence.
Qed.

Lemma addPlayer_entry pid e m q :
  In q (players (addPlayer pid e m)) -> id q = pid -> q = mkScore pid e [] 0 0.
Proof.
  unfold addPlayer; destruct (existsb _ _) eqn:E; cbn [setPlayers players].
  - intros Hin Hq; apply in_map_iff in Hin; destruct Hin as [p [<- Hp]].
    destruct (String.eqb_spec (id p) pid) as [_|Hne]; [reflexivity|contradiction].
  - intros Hin Hq; apply in_app_or in Hin; destruct Hin as [Hin|[<-|[]]]; [|reflexivity].
    assert (Ht : existsb (fun p => String.eqb (id p) pid) (players m) = true)
      by (apply existsb_exists; exists q; split; [exact Hin|apply String.eqb_eq; exact Hq]).
    congruence.
Qed.

Lemma addPlayer_others pid e m q :
  In q (players m) -> id q <> pid -> In q (players (addPlayer pid e m)).
Proof.
  intros Hin Hq; unfold addPlayer; destruct (existsb _ _); cbn [setPlayers players].
  - apply in_map_iff; exists q; split; [|exact Hin].
    rewrite (proj2 (String.eqb_neq _ _) Hq); reflexivity.
  - apply in_or_app; left; exact Hin.
Qed.

(** ** Starting holes and games *)

Lemma startHole_cases i m :
  (stateOf (startHole i m) = m)
  \/ (i < Z.of_nat (List.length (holes m))
      /\ stateOf (startHole i m)
         = startPlayerTurn (mkManager (players m) (Num 0) i (gameInProgress m) (holes m) (golfBall m))).
Proof.
  unfold startHole; destruct (Z.leb_spec (Z.of_nat (List.length (holes m))) i).
  - left; reflexivity.
  - right; split; [lia|reflexivity].
Qed.

Lemma startGame_eq m p0 t :
  players m = p0 :: t -> holes m <> [] ->
  startGame m =
  Ok (mkManager
        (withEntity (resetScore p0) (startTurn (setGolfBall (golfEntity p0)))
         :: map (fun p => withEntity p (endTurn (golfEntity p))) (map resetScore t))
        (Num 0) 0 true (holes m) true).
Proof.
  intros Hp Hh; unfold startGame; rewrite Hp.
  unfold startHole; cbn [holes].
  destruct (holes m) as [|h hs]; [congruence|].
  replace (Z.of_nat (List.length (h :: hs)) <=? 0) with false
    by (symmetry; apply Z.leb_gt; cbn [List.length]; lia).
  reflexivity.
Qed.

Lemma holeTimer_eq m p0 t :
  players m = p0 :: t -> currentHole m + 1 < Z.of_nat (List.length (holes m)) ->
  holeTimer m =
  Ok (mkManager
        (withEntity p0 (startTurn (if golfBall m then setGolfBall (golfEntity p0) else golfEntity p0))
         :: map (fun p => withEntity p (endTurn (golfEntity p))) t)
        (Num 0) (currentHole m + 1) (gameInProgress m) (holes m) (golfBall m)).
Proof.
  intros Hp Hh; unfold holeTimer, startHole.
  replace (Z.of_nat (List.length (holes m)) <=? currentHole m + 1) with false
    by (symmetry; apply Z.leb_gt; lia).
  unfold startPlayerTurn, getCurrentPlayer; cbn [players currentPlayerIndex golfBall].
  rewrite Hp; destruct (golfBall m); reflexivity.
Qed.

(** ** Ending the game *)

Lemma endGame_fields m :
  holes (stateOf (endGame m)) = holes m
  /\ currentHole (stateOf (endGame m)) = currentHole m
  /\ currentPlayerIndex (stateOf (endGame m)) = currentPlayerIndex m.
Proof.
  unfold endGame; destruct (negb (gameInProgress m)); [repeat split|].
  destruct (getCurrentPlayer _) as [[k cp]|];
    match goal with |- context [calculateFinalScores ?m2] => destruct (calculateFinalScores m2) end;
    repeat split.
Qed.

Lemma endGame_map_inv {B} (f : PlayerScore -> B) m :
  (forall p e, f (withEntity p e) = f p) ->
  map f (players (stateOf (endGame m))) = map f (players m).
Proof.
  intros Hf; unfold endGame; destruct (negb (gameInProgress m)); [reflexivity|].
  destruct (getCurrentPlayer _) as [[k cp]|];
    match goal with |- context [calculateFinalScores ?m2] => destruct (calculateFinalScores m2) end;
    cbn [stateOf setPlayers players]; try reflexivity; apply map_updateEntity_inv; exact Hf.
Qed.


(** ** Sorting *)

Lemma insertBy_perm {A} (key : A -> Z) x l : Permutation (insertBy key x l) (x :: l).
Proof.
  induction l as [|y t IH]; cbn [insertBy]; [reflexivity|].
  destruct (key x <=? key y); [reflexivity|].
  etransitivity; [apply perm_skip; exact IH|apply perm_swap].
Qed.

Lemma sortBy_perm {A} (key : A -> Z) l : Permutation (sortBy key l) l.
Proof.
  induction l as [|x t IH]; [reflexivity|].
  unfold sortBy; cbn [fold_right]; fold (sortBy key t).
  etransitivity; [apply insertBy_perm|apply perm_skip; exact IH].
Qed.

Lemma insertBy_hd {A} (key : A -> Z) a x l :
  HdRel (fun u v => key u <= key v) a l -> key a <= key x ->
  HdRel (fun u v => key u <= key v) a (insertBy key x l).
Proof.
  intros H Hx; destruct l as [|y t]; cbn [insertBy]; [constructor; exact Hx|].
  destruct (key x <=? key y); constructor; [exact Hx|inversion H; assumption].
Qed.

Lemma insertBy_sorted {A} (key : A -> Z) x l :
  Sorted (fun u v => key u <= key v) l -> Sorted (fun u v => key u <= key v) (insertBy key x l).
Proof.
  induction l as [|y t IH]; intros H; cbn [insertBy]; [repeat constructor|].
  destruct (Z.leb_spec (key x) (key y)) as [Hle|Hlt].
  - constructor; [exact H|constructor; exact Hle].
  - inversion H as [|? ? Ht Hy]; subst.
    constructor; [apply IH; exact Ht|apply insertBy_hd; [exact Hy|lia]].
Qed.

Lemma sortBy_sorted {A} (key : A -> Z) l : Sorted (fun u v => key u <= key v) (sortBy key l).
Proof.
  induction l as [|x t IH]; [constructor|].
  unfold sortBy; cbn [fold_right]; fold (sortBy key t); apply insertBy_sorted; exact IH.
Qed.

Lemma insertBy_filter {A} (key : A -> Z) v x l :
  filter (fun p => key p =? v) (insertBy key x l) = filter (fun p => key p =? v) (x :: l).
Proof.
  induction l as [|y t IH]; cbn [insertBy]; [reflexivity|].
  destruct (Z.leb_spec (key x) (key y)) as [Hle|Hlt]; [reflexivity|].
  cbn [filter] in *; rewrite IH.
  destruct (Z.eqb_spec (key y) v), (Z.eqb_spec (key x) v); try reflexivity; lia.
Qed.

Lemma sortBy_filter {A} (key : A -> Z) v l :
  filter (fun p => key p =? v) (sortBy key l) = filter (fun p => key p =? v) l.
Proof.
  induction l as [|x t IH]; [reflexivity|].
  unfold sortBy; cbn [fold_right]; fold (sortBy key t).
  rewrite insertBy_filter; cbn [filter]; rewrite IH; reflexivity.
Qed.

Lemma endGame_throw_iff m :
  gameInProgress m = true ->
  (players m = [] <-> exists err, endGame m = Throw (stateOf (endGame m)) err).
Proof.
  intros Hg; unfold endGame; rewrite Hg; cbn [negb].
  set (m1 := mkManager (players m) (currentPlayerIndex m) (currentHole m) false (holes m) (golfBall m)).
  assert (Hgen : forall m2, List.length (players m2) = List.length (players m) ->
            (players m = [] <-> exists err,
               match calculateFinalScores m2 with
               | [] => Throw m2 "TypeError: Cannot read properties of undefined"
               | _ :: _ => Ok m2
               end
               = Throw (stateOf match calculateFinalScores m2 with
                                | [] => Throw m2 "TypeError: Cannot read properties of undefined"
                                | _ :: _ => Ok m2
                                end) err)).
  { intros m2 HL.
    assert (HL2 : List.length (calculateFinalScores m2) = List.length (players m))
      by (unfold calculateFinalScores; rewrite (Permutation_length (sortBy_perm _ _)); exact HL).
    destruct (calculateFinalScores m2) as [|x l]; cbn [stateOf]; split.
    - intros _; eexists; reflexivity.
    - intros _; destruct (players m); [reflexivity|discriminate].
    - intros H; rewrite H in HL2; discriminate.
    - intros [err H]; discriminate. }
  destruct (getCurrentPlayer m1) as [[k cp]|]; apply Hgen; [|reflexivity].
  cbn [setPlayers players]; unfold updateEntity; apply length_updateAt.
Qed.

(** ** Facts with no current player *)

Lemma nan_getCurrentPlayer m : currentPlayerIndex m = NaN -> getCurrentPlayer m = None.
Proof. intros Hi; unfold getCurrentPlayer; rewrite Hi; reflexivity. Qed.

(** ** The shape of reachable states *)

Lemma ids_withEntity : forall p e, id (withEntity p e) = id p.
Proof. reflexivity. Qed.

Lemma startHole_shape i m :
  holes m = defaultCourse -> 0 <= i -> NoDup (map id (players m)) ->
  (holes (stateOf (startHole i m)) = defaultCourse
   /\ NoDup (map id (players (stateOf (startHole i m)))))
  /\ (stateOf (startHole i m) = m
      \/ (currentHole (stateOf (startHole i m)) = i /\ i <= 2
          /\ currentPlayerIndex (stateOf (startHole i m)) = Num 0)).
Proof.
  intros Hh Hi Hu; destruct (startHole_cases i m) as [E|[Hlt E]]; rewrite E.
  - split; [split; assumption|left; reflexivity].
  - destruct (spt_fields (mkManager (players m) (Num 0) i (gameInProgress m) (holes m) (golfBall m)))
      as [Hx [Hc [_ [Hhs _]]]].
    rewrite spt_map_inv by exact ids_withEntity.
    rewrite Hx, Hc, Hhs; cbn [holes players currentHole currentPlayerIndex].
    assert (H3 : i < 3) by (cbn [holes] in Hlt; rewrite Hh in Hlt; exact Hlt).
    split; [split; [exact Hh|exact Hu]|right; repeat split; lia].
Qed.

Lemma mstep_shape m m' :
  holes m = defaultCourse -> 0 <= currentHole m <= 2 -> NoDup (map id (players m)) ->
  (forall z, currentPlayerIndex m = Num z -> 0 <= z) -> mstep m m' ->
  holes m' = defaultCourse /\ 0 <= currentHole m' <= 2 /\ NoDup (map id (players m'))
  /\ (forall z, currentPlayerIndex m' = Num z -> 0 <= z).
Proof.
  intros Hh Hc Hu Hi Hs; destruct Hs as
    [pid mp w m|pid mv m|m|m|mv m|m|m|m|k d i m].
  - destruct (addPlayer_fields pid (newEntity mp w) m) as [Hx [Hc' [_ Hh']]].
    rewrite Hx, Hc', Hh'; repeat split; try assumption; try lia.
    apply addPlayer_nodup; exact Hu.
  - rewrite removePlayer_eq; cbn [setPlayers holes currentHole players currentPlayerIndex].
    repeat split; try assumption; try lia; apply NoDup_ids_filter; exact Hu.
  - unfold startGame; destruct (players m) as [|p0 t] eqn:Ep.
    + cbn [stateOf]; rewrite Ep; repeat split; try assumption; try lia.
    + destruct (startHole_shape 0 (mkManager (map resetScore (p0 :: t)) (Num 0) 0 true (holes m) true)
                  Hh ltac:(lia)) as [[Hh' Hu'] Hcase].
      { cbn [players]; rewrite map_map.
        replace (map (fun x => id (resetScore x)) (p0 :: t)) with (map id (p0 :: t))
          by (apply map_ext; reflexivity); exact Hu. }
      repeat split; try assumption;
        destruct Hcase as [E|[Ec [Hle Ei]]]; rewrite ?E in *; cbn in *; try lia;
        intros z Hz; rewrite ?Ei in Hz; inversion Hz; lia.
  - destruct (endGame_fields m) as [Hh' [Hc' Hx]]; rewrite Hh', Hc', Hx.
    repeat split; try assumption; try lia.
    rewrite endGame_map_inv by exact ids_withEntity; exact Hu.
  - destruct mv; [cbn [nextPlayerTurn]; exact (conj Hh (conj Hc (conj Hu Hi)))|].
    unfold nextPlayerTurn.
    destruct (spt_fields (setIndex m (match currentPlayerIndex m with
                 | Num z => if Z.of_nat (List.length (players m)) =? 0 then NaN
                            else Num (Z.rem (z + 1) (Z.of_nat (List.length (players m))))
                 | NaN => NaN end))) as [Hx [Hc' [_ [Hh' _]]]].
    rewrite Hx, Hc', Hh', spt_map_inv by exact ids_withEntity.
    cbn [setIndex holes currentHole players currentPlayerIndex].
    repeat split; try assumption; try lia.
    intros z Hz; destruct (currentPlayerIndex m) as [y|] eqn:Ey; [|discriminate].
    destruct (Z.eqb_spec (Z.of_nat (List.length (players m))) 0); [discriminate|].
    inversion Hz; subst; apply Z.rem_nonneg; [|specialize (Hi y eq_refl)]; lia.
  - unfold handleBallInHole; destruct (negb (gameInProgress m)); [exact (conj Hh (conj Hc (conj Hu Hi)))|].
    destruct (getCurrentPlayer m) as [[k cp]|]; [|exact (conj Hh (conj Hc (conj Hu Hi)))].
    cbn [fst setPlayers holes currentHole players currentPlayerIndex].
    repeat split; try assumption; try lia.
    rewrite map_updateAt_inv by reflexivity; exact Hu.
  - unfold holeTimer.
    destruct (startHole_shape (currentHole m + 1) m Hh ltac:(lia) Hu) as [[Hh' Hu'] Hcase].
    repeat split; try assumption;
      destruct Hcase as [E|[Ec [Hle Ei]]]; rewrite ?E, ?Ec; try lia;
      intros z Hz; [apply Hi; exact Hz|rewrite Ei in Hz; inversion Hz; lia].
  - unfold handleWaterHazard; destruct (getCurrentPlayer m) as [[k cp]|]; [|exact (conj Hh (conj Hc (conj Hu Hi)))].
    cbn [setPlayers holes currentHole players currentPlayerIndex].
    repeat split; try assumption; try lia.
    rewrite map_updateEntity_inv by exact ids_withEntity; exact Hu.
  - unfold tickPlayer; cbn [setPlayers holes currentHole players currentPlayerIndex].
    repeat split; try assumption; try lia.
    rewrite map_updateEntity_inv by exact ids_withEntity; exact Hu.
Qed.

End ManagerExtras.

Module ManagerExtraClaims.
Import Player Score Manager ManagerFacts ManagerExtras.

(** [removePlayer] never passes the turn: it looks the current player up in
    the map after the deletion, where no entry has the removed id any more,
    so the comparison always fails; the call only deletes the entries with
    that id and keeps the index, the hole and the game flag. *)
Theorem removePlayer_never_advances pid mv m :
  removePlayer pid mv m
  = mkManager (filter (fun p => negb (String.eqb (id p) pid)) (players m))
              (currentPlayerIndex m) (currentHole m) (gameInProgress m) (holes m) (golfBall m).
Proof. exact (removePlayer_eq pid mv m). Qed.

(** [addPlayer]: with distinct ids before, the ids stay distinct; a new id
    is appended in join order, a known one keeps its place; the entry of
    that id is a fresh score ([strokes = []], totals 0) holding the given
    entity, which drops any score it had; every other entry stays; the
    index and the game flag are unchanged. *)
Theorem addPlayer_roster pid e m (Hu : NoDup (map id (players m))) :
  let m' := addPlayer pid e m in
  NoDup (map id (players m'))
  /\ map id (players m') =
     (if existsb (fun p => String.eqb (id p) pid) (players m) then map id (players m)
      else map id (players m) ++ [pid])
  /\ (forall q, In q (players m') -> id q = pid -> q = mkScore pid e [] 0 0)
  /\ (forall q, In q (players m) -> id q <> pid -> In q (players m'))
  /\ currentPlayerIndex m' = currentPlayerIndex m
  /\ gameInProgress m' = gameInProgress m.
Proof.
  intros m'; subst m'.
  destruct (addPlayer_fields pid e m) as [Hx [_ [Hg _]]].
  split; [apply addPlayer_nodup; exact Hu|].
  split; [apply addPlayer_ids|].
  split; [intros q; apply addPlayer_entry|].
  split; [intros q; apply addPlayer_others|].
  split; assumption.
Qed.

(** [startGame] with at least one player (and a course): the game is in
    progress at hole 0 with index 0 and a ball; the roster keeps its order;
    every entry's strokes are [[]] and its totals 0; the first player holds
    the ball, aims and has the turn with a shot count of 0, and every other
    player's turn is off. *)
Theorem startGame_fresh m (Hp : players m <> []) (Hh : holes m <> []) :
  exists m', startGame m = Ok m'
  /\ gameInProgress m' = true /\ currentHole m' = 0 /\ currentPlayerIndex m' = Num 0
  /\ golfBall m' = true /\ holes m' = holes m
  /\ map id (players m') = map id (players m)
  /\ Forall (fun p => strokes p = [] /\ totalStrokes p = 0 /\ Score.currentHole p = 0) (players m')
  /\ (exists p0, hd_error (players m') = Some p0
      /\ isPlayerTurn (golfEntity p0) = true /\ hasBall (golfEntity p0) = true
      /\ isAiming (golfEntity p0) = true /\ shotCount (golfEntity p0) = 0)
  /\ Forall (fun p => isPlayerTurn (golfEntity p) = false) (tl (players m')).
Proof.
  destruct (players m) as [|p0 t] eqn:Ep; [congruence|].
  rewrite (startGame_eq m p0 t Ep Hh).
  eexists; split; [reflexivity|]; cbn [players gameInProgress currentHole currentPlayerIndex
                                        golfBall holes hd_error tl].
  do 5 (split; [reflexivity|]).
  split; [cbn [map]; rewrite !map_map; reflexivity|].
  split; [|split].
  - constructor; [cbn; auto|].
    apply Forall_forall; intros q Hq; rewrite map_map, in_map_iff in Hq.
    destruct Hq as [p [<- _]]; cbn; auto.
  - eexists; split; [reflexivity|].
    destruct (golfEntity p0) as [mx pw c a b n tn w]; cbn; auto.
  - apply Forall_forall; intros q Hq; rewrite map_map, in_map_iff in Hq.
    destruct Hq as [p [<- _]]; reflexivity.
Qed.

(** [endGame] during a game: the game flag is cleared, the index and the
    hole stay, the current player's turn ends, and every entry keeps its
    id, strokes and total; with no player left the call throws (reading the
    winner of an empty ranking) after those changes, otherwise it returns. *)
Theorem endGame_keeps_scores m (Hg : gameInProgress m = true) :
  let o := endGame m in
  gameInProgress (stateOf o) = false
  /\ currentPlayerIndex (stateOf o) = currentPlayerIndex m
  /\ currentHole (stateOf o) = currentHole m
  /\ map (fun p => (id p, strokes p, totalStrokes p)) (players (stateOf o))
     = map (fun p => (id p, strokes p, totalStrokes p)) (players m)
  /\ (forall k cp, getCurrentPlayer m = Some (k, cp) ->
      exists q, nth_error (players (stateOf o)) k = Some q /\ isPlayerTurn (golfEntity q) = false)
  /\ (players m = [] <-> exists err, o = Throw (stateOf o) err).
Proof.
  intros o; subst o.
  destruct (endGame_fields m) as [_ [Hc Hx]].
  split; [|split; [exact Hx|split; [exact Hc|split; [apply endGame_map_inv; reflexivity|split]]]].
  - unfold endGame; rewrite Hg; cbn [negb].
    destruct (getCurrentPlayer _) as [[k cp]|];
      match goal with |- context [calculateFinalScores ?m2] => destruct (calculateFinalScores m2) end;
      reflexivity.
  - intros k cp Hcp; exact (endGame_current_off m k cp Hg Hcp).
  - apply endGame_throw_iff; exact Hg.
Qed.

(** [_calculateFinalScores] ranks every entry exactly once, by ascending
    total, and keeps join order among equal totals ([Array.prototype.sort]
    is stable). *)
Theorem finalScores_ranked m :
  Permutation (calculateFinalScores m) (players m)
  /\ Sorted (fun a b => totalStrokes a <= totalStrokes b) (calculateFinalScores m)
  /\ (forall v, filter (fun p => totalStrokes p =? v) (calculateFinalScores m)
                = filter (fun p => totalStrokes p =? v) (players m)).
Proof.
  unfold calculateFinalScores; split; [apply sortBy_perm|split; [apply sortBy_sorted|]].
  intros v; apply sortBy_filter.
Qed.

(** The winner announced by [endGame] ([finalScores[0]]) is a player with
    the fewest strokes, and among those the one who joined first. *)
Theorem winner_first_minimum m w (Hw : winner m = Some w) :
  In w (players m)
  /\ (forall p, In p (players m) -> totalStrokes w <= totalStrokes p)
  /\ hd_error (filter (fun p => totalStrokes p =? totalStrokes w) (players m)) = Some w.
Proof.
  unfold winner, calculateFinalScores in Hw.
  pose proof (sortBy_perm totalStrokes (players m)) as Hperm.
  pose proof (sortBy_sorted totalStrokes (players m)) as Hs.
  pose proof (sortBy_filter totalStrokes (totalStrokes w) (players m)) as Hf.
  destruct (sortBy totalStrokes (players m)) as [|w' rest] eqn:E; [discriminate|].
  cbn [hd_error] in Hw; inversion Hw; subst w'.
  split; [|split].
  - apply (Permutation_in _ Hperm); left; reflexivity.
  - intros p Hp; apply (Permutation_in _ (Permutation_sym Hperm)) in Hp.
    apply Sorted_StronglySorted in Hs; [|intros a b c; apply Z.le_trans].
    inversion Hs as [|? ? _ Hall]; subst.
    destruct Hp as [<-|Hp]; [lia|].
    rewrite Forall_forall in Hall; apply Hall; exact Hp.
  - rewrite <- Hf; cbn [filter]; rewrite Z.eqb_refl; reflexivity.
Qed.

(** [_calculateCurrentLeaderboard]: one row per entry (its name, total and
    strokes, and the displayed hole [currentHole + 1]), ranked by ascending
    total, ties in join order. *)
Theorem leaderboard_ranked m :
  let rows := map (fun p => mkRow (id p) (totalStrokes p) (currentHole m + 1) (strokes p)) (players m) in
  Permutation (calculateCurrentLeaderboard m) rows
  /\ Sorted (fun a b => rowTotal a <= rowTotal b) (calculateCurrentLeaderboard m)
  /\ Forall (fun row => rowHole row = currentHole m + 1) (calculateCurrentLeaderboard m)
  /\ (forall v, filter (fun row => rowTotal row =? v) (calculateCurrentLeaderboard m)
                = filter (fun row => rowTotal row =? v) rows).
Proof.
  intros rows; unfold calculateCurrentLeaderboard; fold rows.
  split; [apply sortBy_perm|split; [apply sortBy_sorted|split]].
  - apply Forall_forall; intros row Hin.
    apply (Permutation_in _ (sortBy_perm rowTotal rows)) in Hin.
    subst rows; apply in_map_iff in Hin; destruct Hin as [p [<- _]]; reflexivity.
  - intros v; apply sortBy_filter.
Qed.

(** [_handleWaterHazard] adds exactly one stroke to the current player's
    shot count and changes nothing else: every other entry, and every
    entry's strokes and total, stay as they were.  It does not check that a
    game is in progress. *)
Theorem waterHazard_penalty m k cp (Hc : getCurrentPlayer m = Some (k, cp)) :
  let m' := handleWaterHazard m in
  (exists q, nth_error (players m') k = Some q
     /\ golfEntity q = addPenalty (golfEntity cp)
     /\ shotCount (golfEntity q) = shotCount (golfEntity cp) + 1)
  /\ (forall j, j <> k -> nth_error (players m') j = nth_error (players m) j)
  /\ map (fun p => (id p, strokes p, totalStrokes p)) (players m')
     = map (fun p => (id p, strokes p, totalStrokes p)) (players m)
  /\ currentPlayerIndex m' = currentPlayerIndex m
  /\ gameInProgress m' = gameInProgress m.
Proof.
  intros m'; subst m'; unfold handleWaterHazard; rewrite Hc; cbn [setPlayers players
    currentPlayerIndex gameInProgress].
  split; [|split; [|split; [apply map_updateEntity_inv; reflexivity|split; reflexivity]]].
  - unfold updateEntity; rewrite nth_updateAt_same, (getCurrentPlayer_nth m k cp Hc).
    eexists; split; [reflexivity|split; [reflexivity|]].
    unfold addPenalty, setWith; reflexivity.
  - intros j Hj; unfold updateEntity; apply nth_updateAt_other; exact Hj.
Qed.

(** The 3 s timer after a hole-out, before the last hole: the next hole
    starts at index 0, the first player in join order holds the turn with
    a fresh shot count, every other player's turn is off, and the scores
    are untouched. *)
Theorem holeTimer_next_hole m
  (Hh : currentHole m + 1 < Z.of_nat (List.length (holes m))) (Hp : players m <> []) :
  exists m', holeTimer m = Ok m'
  /\ currentHole m' = currentHole m + 1 /\ currentPlayerIndex m' = Num 0
  /\ gameInProgress m' = gameInProgress m
  /\ map (fun p => (id p, strokes p, totalStrokes p)) (players m')
     = map (fun p => (id p, strokes p, totalStrokes p)) (players m)
  /\ (exists p0, hd_error (players m') = Some p0
      /\ isPlayerTurn (golfEntity p0) = true /\ shotCount (golfEntity p0) = 0)
  /\ Forall (fun p => isPlayerTurn (golfEntity p) = false) (tl (players m')).
Proof.
  destruct (players m) as [|p0 t] eqn:Ep; [congruence|].
  rewrite (holeTimer_eq m p0 t Ep Hh).
  eexists; split; [reflexivity|]; cbn [players gameInProgress currentHole currentPlayerIndex
                                        hd_error tl].
  do 3 (split; [reflexivity|]).
  split; [cbn [map]; rewrite map_map; reflexivity|].
  split.
  - eexists; split; [reflexivity|].
    destruct (golfBall m), (golfEntity p0) as [mx pw c a b n tn w];
      unfold startTurn, startAiming, setGolfBall; cbn; destruct b; auto.
  - apply Forall_forall; intros q Hq; apply in_map_iff in Hq.
    destruct Hq as [p [<- _]]; reflexivity.
Qed.

(** A turn advance with an empty roster (the shot timer firing after the
    last player left) computes [(index + 1) % 0], i.e. [NaN]: there is no
    current player afterwards. *)
Theorem empty_roster_turn_nan m (Hp : players m = []) :
  currentPlayerIndex (nextPlayerTurn false m) = NaN
  /\ getCurrentPlayer (nextPlayerTurn false m) = None.
Proof.
  assert (Hi : currentPlayerIndex (nextPlayerTurn false m) = NaN).
  { unfold nextPlayerTurn; rewrite spt_index; cbn [setIndex currentPlayerIndex].
    rewrite Hp; destruct (currentPlayerIndex m); reflexivity. }
  split; [exact Hi|apply nan_getCurrentPlayer; exact Hi].
Qed.

(** Once the index is [NaN] there is no current player, and it stays so:
    joining, leaving, turn advances, input ticks and [endGame] keep the
    index [NaN]; a ball in the hole records nothing and arms no timer, and
    a water hazard changes nothing.  Only [startGame] (or a hole timer)
    sets the index again. *)
Theorem nan_index_stuck m (Hi : currentPlayerIndex m = NaN) :
  getCurrentPlayer m = None
  /\ handleBallInHole m = (m, false)
  /\ handleWaterHazard m = m
  /\ (forall pid e, currentPlayerIndex (addPlayer pid e m) = NaN)
  /\ (forall pid mv, currentPlayerIndex (removePlayer pid mv m) = NaN)
  /\ (forall mv, currentPlayerIndex (nextPlayerTurn mv m) = NaN)
  /\ (forall k d i, currentPlayerIndex (tickPlayer k d i m) = NaN)
  /\ currentPlayerIndex (stateOf (endGame m)) = NaN.
Proof.
  pose proof (nan_getCurrentPlayer m Hi) as Hn.
  split; [exact Hn|].
  split; [unfold handleBallInHole; rewrite Hn; destruct (negb (gameInProgress m)); reflexivity|].
  split; [unfold handleWaterHazard; rewrite Hn; reflexivity|].
  split; [intros pid e; rewrite (proj1 (addPlayer_fields pid e m)); exact Hi|].
  split; [intros pid mv; rewrite removePlayer_eq; exact Hi|].
  split; [intros [|]; [exact Hi|unfold nextPlayerTurn; rewrite spt_index; cbn [setIndex currentPlayerIndex];
          rewrite Hi; reflexivity]|].
  split; [intros k d i; exact Hi|].
  rewrite (proj2 (proj2 (endGame_fields m))); exact Hi.
Qed.

(** In every state the server can reach, the course is the default one, the
    current hole lies in [0, 2] (the throw of [_startHole] past the last
    hole leaves it at 2), player ids are distinct, and the index is [NaN] or
    non-negative. *)
Theorem reachable_shape m (Hr : mreachable m) :
  holes m = defaultCourse /\ 0 <= currentHole m <= 2
  /\ NoDup (map id (players m))
  /\ (forall z, currentPlayerIndex m = Num z -> 0 <= z).
Proof.
  induction Hr as [|m m' Hr IH Hs].
  - split; [reflexivity|split; [cbn; lia|split; [constructor|]]].
    intros z Hz; inversion Hz; lia.
  - destruct IH as [Hh [Hc [Hu Hi]]]; exact (mstep_shape m m' Hh Hc Hu Hi Hs).
Qed.

(** [_handleBallInHole] only writes scores: no entity changes (the current
    player's turn goes on and its shot count is not reset until the next
    hole's [startTurn]), no other entry changes, the index and the hole
    stay, and the 3 s timer is armed. *)
Theorem ballInHole_keeps_entities m k cp
  (Hg : gameInProgress m = true) (Hc : getCurrentPlayer m = Some (k, cp)) :
  snd (handleBallInHole m) = true
  /\ map golfEntity (players (fst (handleBallInHole m))) = map golfEntity (players m)
  /\ (forall j, j <> k -> nth_error (players (fst (handleBallInHole m))) j = nth_error (players m) j)
  /\ currentPlayerIndex (fst (handleBallInHole m)) = currentPlayerIndex m
  /\ currentHole (fst (handleBallInHole m)) = currentHole m.
Proof.
  unfold handleBallInHole; rewrite Hg, Hc; cbn [negb fst snd setPlayers players
    currentPlayerIndex currentHole].
  split; [reflexivity|split; [apply map_updateAt_inv; reflexivity|split; [|split; reflexivity]]].
  intros j Hj; apply nth_updateAt_other; exact Hj.
Qed.

End ManagerExtraClaims.

(* ================================================================= *)
(** * The extra properties at concrete inputs *)

Module ExtraWitnesses.
Import Player Score Manager Scenarios.


Lemma no_ball_no_shot_witness :
  flat_map snd (snd (runLog [EvStartTurn; EvTick facing press; EvTick facing release; EvPenalty]
                            (newEntity 100 true))) = [].
Proof.
  destruct (PlayerExtraClaims.no_ball_no_shot
              [EvStartTurn; EvTick facing press; EvTick facing release; EvPenalty]
              (newEntity 100 true) eq_refl eq_refl eq_refl
              ltac:(intros H; simpl in H; repeat (destruct H as [H|H]; [discriminate H|]); exact H))
    as [_ [_ [_ Hfx]]].
  exact Hfx.
Defined.

Lemma endTurn_then_inert_witness :
  flat_map snd (snd (runLog [EvTick facing release; EvSetBall; EvTick facing press]
                            (endTurn chargingEntity))) = [].
Proof.
  destruct (PlayerExtraClaims.endTurn_then_inert
              [EvTick facing release; EvSetBall; EvTick facing press] chargingEntity
              ltac:(intros H; simpl in H; repeat (destruct H as [H|H]; [discriminate H|]); exact H))
    as [_ [_ [_ [_ Hfx]]]].
  exact Hfx.
Defined.

(** "a" joins again during the game: the roster order is kept. *)
Lemma addPlayer_roster_witness :
  map id (players (addPlayer "a" (newEntity 100 true) trioStart)) = ["a"; "b"; "c"]%string.
Proof.
  destruct (ManagerExtraClaims.addPlayer_roster "a" (newEntity 100 true) trioStart
              ltac:(vm_compute; repeat constructor; simpl; intuition discriminate))
    as [_ [Hids _]].
  rewrite Hids; vm_compute; reflexivity.
Defined.

Lemma startGame_fresh_witness :
  exists m', startGame (addPlayer "b" (newEntity 100 true) (addPlayer "a" (newEntity 100 true) initial))
             = Ok m' /\ currentPlayerIndex m' = Num 0.
Proof.
  destruct (ManagerExtraClaims.startGame_fresh
              (addPlayer "b" (newEntity 100 true) (addPlayer "a" (newEntity 100 true) initial))
              ltac:(intros H; vm_compute in H; discriminate H)
              ltac:(intros H; vm_compute in H; discriminate H))
    as [m' [Hs [_ [_ [Hi _]]]]].
  exists m'; split; assumption.
Defined.

Lemma endGame_keeps_scores_witness :
  gameInProgress (stateOf (endGame trioStart)) = false.
Proof.
  exact (proj1 (ManagerExtraClaims.endGame_keeps_scores trioStart ltac:(vm_compute; reflexivity))).
Defined.

(** "a" holes out in one stroke on the first hole; "b" and "c" have none:
    "b", the first of them to join, is the winner. *)
Lemma winner_first_minimum_witness :
  exists w, winner (fst (handleBallInHole (shoot 0 trioStart))) = Some w
    /\ id w = "b"%string
    /\ (forall p, In p (players (fst (handleBallInHole (shoot 0 trioStart)))) ->
          totalStrokes w <= totalStrokes p).
Proof.
  destruct (winner (fst (handleBallInHole (shoot 0 trioStart)))) as [w|] eqn:E;
    [|vm_compute in E; discriminate E].
  exists w; split; [reflexivity|split].
  - vm_compute in E; injection E as <-; reflexivity.
  - exact (proj1 (proj2 (ManagerExtraClaims.winner_first_minimum _ w E))).
Defined.

Lemma waterHazard_penalty_witness :
  exists q, nth_error (players (handleWaterHazard trioStart)) 0 = Some q
    /\ shotCount (golfEntity q) = 1.
Proof.
  destruct (getCurrentPlayer trioStart) as [[k cp]|] eqn:E; [|vm_compute in E; discriminate E].
  destruct (ManagerExtraClaims.waterHazard_penalty trioStart k cp E) as [[q [Hq [_ Hs]]] _].
  vm_compute in E; injection E as <- <-.
  exists q; split; [exact Hq|rewrite Hs; reflexivity].
Defined.

Lemma holeTimer_next_hole_witness :
  exists m', holeTimer (fst (handleBallInHole (shoot 0 trioStart))) = Ok m' /\ currentHole m' = 1.
Proof.
  destruct (ManagerExtraClaims.holeTimer_next_hole (fst (handleBallInHole (shoot 0 trioStart)))
              ltac:(vm_compute; reflexivity)
              ltac:(intros H; vm_compute in H; discriminate H))
    as [m' [Hs [Hh _]]].
  exists m'; split; [exact Hs|rewrite Hh; vm_compute; reflexivity].
Defined.

(** "a" starts a game alone, shoots and leaves; the shot timer then fires. *)
Lemma empty_roster_turn_nan_witness :
  currentPlayerIndex (nextPlayerTurn false (removePlayer "a" false (shoot 0 soloStart))) = NaN.
Proof.
  exact (proj1 (ManagerExtraClaims.empty_roster_turn_nan
                  (removePlayer "a" false (shoot 0 soloStart)) ltac:(vm_compute; reflexivity))).
Defined.

(** ... and "b" joins afterwards: there is still no current player. *)
Lemma nan_index_stuck_witness :
  currentPlayerIndex (addPlayer "b" (newEntity 100 true)
     (nextPlayerTurn false (removePlayer "a" false (shoot 0 soloStart)))) = NaN.
Proof.
  destruct (ManagerExtraClaims.nan_index_stuck
              (nextPlayerTurn false (removePlayer "a" false (shoot 0 soloStart)))
              ltac:(vm_compute; reflexivity)) as [_ [_ [_ [Ha _]]]].
  apply Ha.
Defined.

Lemma reachable_shape_witness : NoDup (map id (players trioStart)).
Proof.
  exact (proj1 (proj2 (proj2 (ManagerExtraClaims.reachable_shape trioStart
                                 Witnesses.trioStart_reachable)))).
Defined.

Lemma ballInHole_keeps_entities_witness :
  map golfEntity (players (fst (handleBallInHole (shoot 0 trioStart))))
  = map golfEntity (players (shoot 0 trioStart)).
Proof.
  destruct (getCurrentPlayer (shoot 0 trioStart)) as [[k cp]|] eqn:E;
    [|vm_compute in E; discriminate E].
  exact (proj1 (proj2 (ManagerExtraClaims.ballInHole_keeps_entities (shoot 0 trioStart) k cp
                         ltac:(vm_compute; reflexivity) E))).
Defined.

End ExtraWitnesses.
